(** * cloudwatchlogs: a shallow embedding of [cloudwatch/main.py] and
      [cloudwatch/consumer_mixpanel.py]

    The development follows the layout of the Python sources:

    - Python dictionaries are insertion-ordered association lists
      ([dict]): assignment to a present key keeps its position, assignment
      to a fresh key appends.  Order matters here because [json.dumps]
      and the dispatcher both iterate dictionaries in that order.
    - The two module-level dictionaries [LOG_STREAM_MAP] and
      [LOG_STREAM_CHECKPOINT] are fields of the program state; the
      accessors of [GlobalManager] hand out the objects themselves, which
      is modelled by a reference that is read through the current state.
    - Code that can raise runs in a small state-and-exception monad [M]:
      the state survives a raise, as the effects of a Python function do.
    - The endless [while True] loops are driven by the list of inputs the
      environment supplies (one listing per discovery tick, one clock
      reading per persistence cycle).
    - Printing, logging, sleeping and directory creation have no bearing
      on the modelled state and are left out; the directories of the
      files are taken to exist.
    - Where a reader runs unprotected beside the other threads, it is
      written a second time one step at a time ([Interleaved]), with what
      the other threads do between its steps as an input. *)

From Stdlib Require Import String Ascii List Bool Arith ZArith Lia.
Import ListNotations.
Local Open Scope string_scope.
Local Open Scope list_scope.

Set Implicit Arguments.

(* ================================================================== *)
(** * Part I: the program *)

(** ** Python dictionaries *)

(** Keys need the boolean equality Python's [==] gives them. *)
Class PyKey (K : Type) := key_eqb : K -> K -> bool.

Class PyKeyOk (K : Type) {E : PyKey K} :=
  key_eqb_eq : forall a b : K, key_eqb a b = true <-> a = b.
#[global] Arguments PyKeyOk K {E}.

#[export] Instance string_PyKey : PyKey string := String.eqb.

#[export] Instance nat_PyKey : PyKey nat := Nat.eqb.

(** A Python tuple of strings, such as [(LOG_GROUP_NAME, lsn)] or the
    one-element [(LOG_GROUP_NAME,)]. *)
Definition tuple := list string.

Fixpoint tuple_eqb (a b : tuple) : bool :=
  match a, b with
  | [], [] => true
  | x :: a', y :: b' => String.eqb x y && tuple_eqb a' b'
  | _, _ => false
  end.

#[export] Instance tuple_PyKey : PyKey tuple := tuple_eqb.

Section Dict.
Context {K V : Type} {E : PyKey K}.

Definition dict := list (K * V).

(** [d.keys()], in insertion order *)
Definition dict_keys (d : dict) : list K := map fst d.

(** [d.get(k)]; [None] stands for the absent key. *)
Fixpoint dict_get (k : K) (d : dict) : option V :=
  match d with
  | [] => None
  | (k', v) :: r => if key_eqb k k' then Some v else dict_get k r
  end.

(** [k in d] *)
Definition dict_mem (k : K) (d : dict) : bool :=
  match dict_get k d with Some _ => true | None => false end.

(** [d[k] = v] *)
Fixpoint dict_set (k : K) (v : V) (d : dict) : dict :=
  match d with
  | [] => [(k, v)]
  | (k', v') :: r =>
      if key_eqb k k' then (k', v) :: r else (k', v') :: dict_set k v r
  end.

(** [del d[k]] *)
Fixpoint dict_remove (k : K) (d : dict) : dict :=
  match d with
  | [] => []
  | (k', v') :: r =>
      if key_eqb k k' then r else (k', v') :: dict_remove k r
  end.

(** [d.update(src)]: the items of [src] are assigned in order. *)
Definition dict_update (src : dict) (d : dict) : dict :=
  fold_left (fun acc kv => dict_set (fst kv) (snd kv) acc) src d.

End Dict.
#[global] Arguments dict : clear implicits.

(** Line feed and double quote, which have no literal of their own. *)
Definition nl : string := String (ascii_of_nat 10) EmptyString.
Definition dquote : string := String (ascii_of_nat 34) EmptyString.

(* ------------------------------------------------------------------ *)
(** ** [consumer_mixpanel.py]: values decoded from a log line *)

(** The values [json.loads] can hand to [should_report]: [None], booleans,
    integers, strings, lists and objects.  (Floating-point numbers are
    left out.) *)
#[local] Unset Elimination Schemes.
Inductive pyval : Type :=
| PyNone
| PyBool (b : bool)
| PyInt (z : Z)
| PyStr (s : string)
| PyList (items : list pyval)
| PyDict (items : list (string * pyval)).
#[local] Set Elimination Schemes.

(** Python truth value testing, as used by [not x]. *)
Definition truthy (v : pyval) : bool :=
  match v with
  | PyNone => false
  | PyBool b => b
  | PyInt z => negb (Z.eqb z 0)
  | PyStr s => negb (String.eqb s "")
  | PyList items => match items with [] => false | _ => true end
  | PyDict items => match items with [] => false | _ => true end
  end.

(** [v == s] for a string literal [s]: only a string compares equal to a
    string. *)
Definition py_eq_str (v : pyval) (s : string) : bool :=
  match v with
  | PyStr s' => String.eqb s' s
  | _ => false
  end.

(** The exceptions that processing a log line can meet. *)
Inductive py_exception : Type :=
| KeyError (key : string)     (* [d[key]] on a dictionary without [key] *)
| TypeError                   (* subscripting, [in] or [json.loads] on the wrong type *)
| AttributeError              (* [.get] on a value that is not a dictionary *)
| JSONDecodeError             (* [json.loads] on text that is not JSON *)
| MixpanelException.          (* raised by the Mixpanel client *)

Inductive attempt (A : Type) : Type :=
| Ok (a : A)
| Err (e : py_exception).
#[global] Arguments Err {A} e.

Definition attempt_bind {A B} (m : attempt A) (f : A -> attempt B) : attempt B :=
  match m with
  | Ok a => f a
  | Err e => Err e
  end.

(** The value under [key] among the items of a dictionary. *)
Fixpoint items_get (key : string) (items : list (string * pyval)) : option pyval :=
  match items with
  | [] => None
  | (k, v) :: rest => if String.eqb key k then Some v else items_get key rest
  end.

(** [v[key]] for a string [key]: only a dictionary can be subscripted by
    a string, and the key has to be there. *)
Definition py_getitem (v : pyval) (key : string) : attempt pyval :=
  match v with
  | PyDict items =>
      match items_get key items with
      | Some x => Ok x
      | None => Err (KeyError key)
      end
  | _ => Err TypeError
  end.

(** [v.get(key)]: only a dictionary has [get]; an absent key gives [None]. *)
Definition py_get (v : pyval) (key : string) : attempt pyval :=
  match v with
  | PyDict items =>
      Ok (match items_get key items with Some x => x | None => PyNone end)
  | _ => Err AttributeError
  end.

(** [sub in s] on strings: [sub] occurs somewhere in [s]. *)
Fixpoint str_contains (sub s : string) : bool :=
  String.prefix sub s ||
  match s with
  | EmptyString => false
  | String _ rest => str_contains sub rest
  end.

(** [key in v] for a string [key]: a substring test on a string, a key
    test on a dictionary, an element test on a list; the other values are
    not iterable. *)
Definition py_contains (key : string) (v : pyval) : attempt bool :=
  match v with
  | PyStr s => Ok (str_contains key s)
  | PyDict items => Ok (match items_get key items with Some _ => true | None => false end)
  | PyList items => Ok (existsb (fun x => py_eq_str x key) items)
  | _ => Err TypeError
  end.

(** One call of [Mixpanel.track(distinct_id, event_name, properties)]. *)
Record track_call := mkTrack {
  distinct_id : pyval;
  event_name : string;
  properties : list (string * pyval)
}.

(** What one call of [process] did: the calls it made on the Mixpanel
    client and the exceptions it handed to [logging.exception]. *)
Record processed := mkProcessed {
  tracked : list track_call;
  logged : list py_exception
}.

Module MixpanelConsumer.

(** [MixpanelConsumer.should_report(url, app_id)] *)
Definition should_report (url app_id : pyval) : bool :=
  if negb (truthy url) then false
  else if py_eq_str url "/" then false
  else if negb (truthy app_id) then false
  else true.

(** [should_report(url)]: [app_id] defaults to [None]. *)
Definition should_report_default (url : pyval) : bool :=
  should_report url PyNone.

Section Process.

(** [json.loads] on a string: the decoded value, or nothing when the text
    is not JSON. *)
Variable json_loads : string -> option pyval.

(** [config.CWL_ENV] *)
Variable CWL_ENV : string.

(** The Mixpanel client: whether sending a call raises. *)
Variable mp_track : track_call -> option py_exception.

(** [json.loads(v)]: only text is accepted. *)
Definition loads (v : pyval) : attempt pyval :=
  match v with
  | PyStr s =>
      match json_loads s with
      | Some x => Ok x
      | None => Err JSONDecodeError
      end
  | _ => Err TypeError
  end.

(** The body of the [try] in [process], up to the call of [self.mp.track]:
    the call to make, if any. *)
Definition process_body (log_line : pyval) : attempt (option track_call) :=
  attempt_bind (py_getitem log_line "message") (fun message =>
  attempt_bind (loads message) (fun message =>
  attempt_bind (py_get message "message") (fun message =>
  attempt_bind (py_contains "templatized_url" message) (fun present =>
  if negb present then Ok None else
  attempt_bind (loads message) (fun message =>
  attempt_bind (py_get message "request_url") (fun request_url =>
  attempt_bind (py_get message "templatized_url") (fun templatized_url =>
  if py_eq_str templatized_url "/" then Ok None else
  attempt_bind (py_get message "app_id") (fun app_id =>
  let payload := [("url", templatized_url); ("full_url", request_url);
                  ("app_id", app_id); ("env", PyStr CWL_ENV)] in
  if should_report templatized_url app_id
  then Ok (Some (mkTrack app_id "API Request" payload))
  else Ok None)))))))).

(** [MixpanelConsumer.process(log_line, log_group, log_stream)]: whatever
    is raised inside the [try] is logged. *)
Definition process (log_line : pyval) (log_group log_stream : string) : processed :=
  match process_body log_line with
  | Err e => mkProcessed [] [e]
  | Ok None => mkProcessed [] []
  | Ok (Some call) =>
      match mp_track call with
      | None => mkProcessed [call] []
      | Some e => mkProcessed [call] [e]
      end
  end.

End Process.

End MixpanelConsumer.

(* ------------------------------------------------------------------ *)
(** ** [main.py]: program state *)

(** A started [threading.Thread], identified by its start order. *)
Definition thread := nat.

(** A resumption token: a string, or Python's [None]. *)
Definition token := option string.

(** The arguments a worker thread was started with
    ([target=self.write_log, args=(file_name, log_group_name, log_stream_name)]). *)
Record thread_args := mkThread {
  th_file_name : string;
  th_log_group_name : string;
  th_log_stream_name : string
}.

Inductive exn : Type :=
| ValueError                      (* unpacking a tuple of the wrong length, I/O on a closed file *)
| ClientError (msg : string)      (* raised by the log source client *)
| RuntimeError                    (* dictionary changed size during iteration *)
| IndexError.                     (* tuple index out of range *)

(** The calls a worker makes on its file and on the checkpoint store, in
    program order. *)
Inductive event : Type :=
| EvWrite (path data : string)          (* [fhandle.write(data)] *)
| EvFlush (path : string)               (* [fhandle.flush()] *)
| EvClose (path : string)               (* [fhandle.close()] *)
| EvSetCheckpoint (key : string) (tok : token).  (* [gb.set_checkpoint(key, tok)] *)

Record State := mkState {
  LOG_STREAM_MAP : dict tuple (option thread);   (* value [None]: no thread yet *)
  LOG_STREAM_CHECKPOINT : dict string token;
  files : dict string string;                    (* path -> content on disk *)
  open_files : dict nat (string * string);       (* file object -> (path, unflushed data) *)
  next_fd : nat;
  threads : list thread_args;                    (* threads started, in start order *)
  trace : list event
}.

(** The state at import time: both dictionaries are [{}]. *)
Definition initial_state : State :=
  {| LOG_STREAM_MAP := []; LOG_STREAM_CHECKPOINT := []; files := [];
     open_files := []; next_fd := 0; threads := []; trace := [] |}.

Definition with_LOG_STREAM_MAP (m : dict tuple (option thread)) (st : State) : State :=
  {| LOG_STREAM_MAP := m; LOG_STREAM_CHECKPOINT := LOG_STREAM_CHECKPOINT st;
     files := files st; open_files := open_files st; next_fd := next_fd st;
     threads := threads st; trace := trace st |}.

Definition with_LOG_STREAM_CHECKPOINT (c : dict string token) (st : State) : State :=
  {| LOG_STREAM_MAP := LOG_STREAM_MAP st; LOG_STREAM_CHECKPOINT := c;
     files := files st; open_files := open_files st; next_fd := next_fd st;
     threads := threads st; trace := trace st |}.

Definition with_files (f : dict string string) (st : State) : State :=
  {| LOG_STREAM_MAP := LOG_STREAM_MAP st;
     LOG_STREAM_CHECKPOINT := LOG_STREAM_CHECKPOINT st;
     files := f; open_files := open_files st; next_fd := next_fd st;
     threads := threads st; trace := trace st |}.

Definition with_open_files (o : dict nat (string * string)) (st : State) : State :=
  {| LOG_STREAM_MAP := LOG_STREAM_MAP st;
     LOG_STREAM_CHECKPOINT := LOG_STREAM_CHECKPOINT st;
     files := files st; open_files := o; next_fd := next_fd st;
     threads := threads st; trace := trace st |}.

Definition with_next_fd (n : nat) (st : State) : State :=
  {| LOG_STREAM_MAP := LOG_STREAM_MAP st;
     LOG_STREAM_CHECKPOINT := LOG_STREAM_CHECKPOINT st;
     files := files st; open_files := open_files st; next_fd := n;
     threads := threads st; trace := trace st |}.

Definition with_threads (t : list thread_args) (st : State) : State :=
  {| LOG_STREAM_MAP := LOG_STREAM_MAP st;
     LOG_STREAM_CHECKPOINT := LOG_STREAM_CHECKPOINT st;
     files := files st; open_files := open_files st; next_fd := next_fd st;
     threads := t; trace := trace st |}.

Definition log_event (e : event) (st : State) : State :=
  {| LOG_STREAM_MAP := LOG_STREAM_MAP st;
     LOG_STREAM_CHECKPOINT := LOG_STREAM_CHECKPOINT st;
     files := files st; open_files := open_files st; next_fd := next_fd st;
     threads := threads st; trace := trace st ++ [e] |}.

(** What reading the file at [path] gives; a missing file reads as empty. *)
Definition file_content (st : State) (path : string) : string :=
  match dict_get path (files st) with Some c => c | None => "" end.

(* ------------------------------------------------------------------ *)
(** ** State and exceptions *)

Inductive result (A : Type) : Type :=
| Return (a : A)
| Raise (e : exn).
#[global] Arguments Raise {A} e.

Definition M (A : Type) : Type := State -> result A * State.

Definition ret {A} (a : A) : M A := fun st => (Return a, st).

Definition raise {A} (e : exn) : M A := fun st => (Raise e, st).

Definition bind {A B} (m : M A) (f : A -> M B) : M B :=
  fun st =>
    match m st with
    | (Return a, st') => f a st'
    | (Raise e, st') => (Raise e, st')
    end.

Declare Scope py_scope.
Delimit Scope py_scope with py.
Notation "x <- m ;; k" := (bind m (fun x => k))
  (at level 61, m at next level, right associativity) : py_scope.
Notation "m ;; k" := (bind m (fun _ => k))
  (at level 61, right associativity) : py_scope.
Local Open Scope py_scope.

Definition modify (f : State -> State) : M unit := fun st => (Return tt, f st).

Definition exec {A} (m : M A) (st : State) : State := snd (m st).

Definition outcome {A} (m : M A) (st : State) : result A := fst (m st).

(** [for x in l: body(x)] *)
Fixpoint for_each {A} (l : list A) (body : A -> M unit) : M unit :=
  match l with
  | [] => ret tt
  | x :: r => body x ;; for_each r body
  end.

(** How a lazy remote sequence ends once its items are consumed: it is
    exhausted, or the client raises. *)
Definition sequence_end (fin : option exn) : M unit :=
  match fin with
  | None => ret tt
  | Some e => raise e
  end.

(** A value a function returned that is a dictionary object: either one
    of the module-level objects itself, read through the state of the
    moment, or an object of its own. *)
Inductive ref (D : Type) : Type :=
| Global (var : State -> D)
| Fresh (contents : D).

Definition deref {D} (st : State) (r : ref D) : D :=
  match r with
  | Global var => var st
  | Fresh d => d
  end.

(** [r.get(k)] and [r.items()] on a returned dictionary. *)
Definition ref_get {K V} {E : PyKey K} (r : ref (dict K V)) (k : K) : M (option V) :=
  fun st => (Return (dict_get k (deref st r)), st).

Definition ref_items {K V} (r : ref (dict K V)) : M (list (K * V)) :=
  fun st => (Return (deref st r), st).

(* ------------------------------------------------------------------ *)
(** ** [class GlobalManager]

    Every accessor takes [self.lock] for its whole body, so each is one
    atomic step. *)
Module GlobalManager.

(** [return LOG_STREAM_MAP] *)
Definition get_log_stream_map : M (ref (dict tuple (option thread))) :=
  ret (Global LOG_STREAM_MAP).

(** [LOG_STREAM_MAP[key] = value] *)
Definition set_log_stream_map (key : tuple) (value : option thread) : M unit :=
  modify (fun st => with_LOG_STREAM_MAP (dict_set key value (LOG_STREAM_MAP st)) st).

(** [return LOG_STREAM_CHECKPOINT] *)
Definition get_checkpoint : M (ref (dict string token)) :=
  ret (Global LOG_STREAM_CHECKPOINT).

(** [LOG_STREAM_CHECKPOINT[key] = value] *)
Definition set_checkpoint (key : string) (value : token) : M unit :=
  modify (fun st =>
    log_event (EvSetCheckpoint key value)
      (with_LOG_STREAM_CHECKPOINT (dict_set key value (LOG_STREAM_CHECKPOINT st)) st)).

End GlobalManager.

(* ------------------------------------------------------------------ *)
(** ** File objects *)

(** [open(path, 'a+')]: the file is created when missing and the data
    written later goes after its present content. *)
Definition open_append (path : string) : M nat :=
  fun st =>
    let fd := next_fd st in
    let st1 := if dict_mem path (files st) then st
               else with_files (dict_set path "" (files st)) st in
    (Return fd,
     with_next_fd (S fd) (with_open_files (dict_set fd (path, "") (open_files st1)) st1)).

(** [open(path, 'w')]: the file is created or truncated. *)
Definition open_write (path : string) : M nat :=
  fun st =>
    let fd := next_fd st in
    let st1 := with_files (dict_set path "" (files st)) st in
    (Return fd,
     with_next_fd (S fd) (with_open_files (dict_set fd (path, "") (open_files st1)) st1)).

(** [fhandle.write(data)]: the data goes to the object's buffer. *)
Definition fwrite (fhandle : nat) (data : string) : M unit :=
  fun st =>
    match dict_get fhandle (open_files st) with
    | None => (Raise ValueError, st)
    | Some (path, buf) =>
        (Return tt,
         log_event (EvWrite path data)
           (with_open_files (dict_set fhandle (path, (buf ++ data)%string) (open_files st)) st))
    end.

(** Moving the buffer of a file object to the disk. *)
Definition commit (fhandle : nat) (path buf : string) (st : State) : State :=
  with_open_files (dict_set fhandle (path, "") (open_files st))
    (with_files (dict_set path (file_content st path ++ buf)%string (files st)) st).

(** [fhandle.flush()] *)
Definition fflush (fhandle : nat) : M unit :=
  fun st =>
    match dict_get fhandle (open_files st) with
    | None => (Raise ValueError, st)
    | Some (path, buf) =>
        (Return tt, log_event (EvFlush path) (commit fhandle path buf st))
    end.

(** [fhandle.close()]: what is still buffered is written out; closing a
    closed file does nothing. *)
Definition fclose (fhandle : nat) : M unit :=
  fun st =>
    match dict_get fhandle (open_files st) with
    | None => (Return tt, st)
    | Some (path, buf) =>
        let st1 := commit fhandle path buf st in
        (Return tt,
         log_event (EvClose path)
           (with_open_files (dict_remove fhandle (open_files st1)) st1))
    end.

(* ------------------------------------------------------------------ *)
(** ** [json.dumps] on the persisted state *)

Section Json.

(** The standard library's string encoder ([encode_basestring_ascii]): it
    yields the quoted, escaped form of a string. *)
Variable encode_basestring_ascii : string -> string.

Definition json_value (v : token) : string :=
  match v with
  | None => "null"
  | Some s => encode_basestring_ascii s
  end.

Definition json_item (kv : string * token) : string :=
  (encode_basestring_ascii (fst kv) ++ ": " ++ json_value (snd kv))%string.

(** [json.dumps(state)] with the default separators. *)
Definition json_dumps (state : dict string token) : string :=
  ("{" ++ String.concat ", " (map json_item state) ++ "}")%string.

End Json.

(** A concrete encoder for code points below 256, after CPython's
    [py_encode_basestring_ascii]: quote and backslash are escaped, the
    usual control characters get their short form, everything else
    outside the printable range becomes [\u00XX]. *)
Definition hex_digit (n : nat) : ascii :=
  if (n <? 10)%nat then ascii_of_nat (48 + n) else ascii_of_nat (87 + n).

Definition backslash : string := String (ascii_of_nat 92) EmptyString.

Definition escape_char (c : ascii) : string :=
  let n := nat_of_ascii c in
  if (n =? 34)%nat then (backslash ++ dquote)%string
  else if (n =? 92)%nat then (backslash ++ backslash)%string
  else if (n =? 10)%nat then (backslash ++ "n")%string
  else if (n =? 13)%nat then (backslash ++ "r")%string
  else if (n =? 9)%nat then (backslash ++ "t")%string
  else if (n =? 12)%nat then (backslash ++ "f")%string
  else if (n =? 8)%nat then (backslash ++ "b")%string
  else if ((32 <=? n)%nat && (n <=? 126)%nat)%bool then String c EmptyString
  else (backslash ++ "u00"
         ++ String (hex_digit (n / 16)) (String (hex_digit (n mod 16)) EmptyString))%string.

Fixpoint escape_string (s : string) : string :=
  match s with
  | EmptyString => EmptyString
  | String c r => (escape_char c ++ escape_string r)%string
  end.

Definition py_encode_basestring_ascii (s : string) : string :=
  (dquote ++ escape_string s ++ dquote)%string.

(* ------------------------------------------------------------------ *)
(** ** [class LogStreamHandler] *)

(** A stream descriptor as the client lists it; only its
    ['logStreamName'] entry is read. *)
Record log_stream := mkLogStream { logStreamName : string }.

(** What one call of [aws_client.get_log_streams] gives: the descriptors
    it yields, and how the sequence ends. *)
Definition listing : Type := list log_stream * option exn.

Module LogStreamHandler.
Section WithConfig.

(** [config.py] *)
Variable LOG_GROUP_NAME : string.
Variable AWS_LOGS_DIRECTORY : string.

(** Modelled from the spec: [LOG_STREAMS_FILTER] is read by
    [_wanted_log_stream] but [config.py] does not define it; the spec
    calls it an optional allow-list of stream names, so it is [None] or a
    list of names. *)
Variable LOG_STREAMS_FILTER : option (list string).

(** [slugify.slugify], a third-party function. *)
Variable slugify : string -> string.

(** Log events as the client yields them, and Python's [str] on them. *)
Variable LogEvent : Type.
Variable str : LogEvent -> string.

Variable encode_basestring_ascii : string -> string.

(** What [aws_client.get_log_events] yields for one stream: pages of
    events, each with its next token, and how the sequence ends. *)
Definition log_events : Type := list (list LogEvent * token) * option exn.

(** The file is opened for reading and, when that fails, for writing,
    which creates it empty.  The directory of [file_name] is taken to
    exist, as [_get_file_name] sees to before [sync_new_logs] starts a
    worker; the case of a path that cannot be created, where the second
    [open] raises before anything is read from the source, is not part of
    this model. *)
Definition _create_file_if_does_not_exist (file_name : string) : M unit :=
  modify (fun st =>
    if dict_mem file_name (files st) then st
    else with_files (dict_set file_name "" (files st)) st).

Definition _get_log_dir_name (log_group_name : string) : string :=
  slugify log_group_name.

Definition _get_file_name (log_group_name log_stream_name : string) : string :=
  let sanitized_log_group_name := _get_log_dir_name log_group_name in
  let sanitized_log_stream_name := slugify log_stream_name in
  (AWS_LOGS_DIRECTORY ++ "/" ++ sanitized_log_group_name ++ "/"
     ++ sanitized_log_stream_name ++ ".log")%string.

Definition write_log (file_name log_group_name log_stream_name : string)
    (source : log_events) : M unit :=
  _create_file_if_does_not_exist file_name ;;
  fhandle <- open_append file_name ;;
  for_each (fst source) (fun page =>
    let '(_logs, next_token) := page in
    for_each _logs (fun _log =>
      fwrite fhandle (str _log ++ nl)%string ;;
      fflush fhandle) ;;
    GlobalManager.set_checkpoint log_stream_name next_token) ;;
  sequence_end (snd source) ;;
  fclose fhandle.

Definition _wanted_log_stream (log_stream_name : string) : bool :=
  match LOG_STREAMS_FILTER with
  | None => true
  | Some names => existsb (String.eqb log_stream_name) names
  end.

(** The truth value of what [d.get(key)] returned: an absent key and a
    [None] value are false, a thread object is true. *)
Definition entry_truthy (v : option (option thread)) : bool :=
  match v with
  | Some (Some _) => true
  | _ => false
  end.

Definition _discover_log_streams (log_streams : listing) : M unit :=
  for_each (fst log_streams) (fun log_stream =>
    m <- GlobalManager.get_log_stream_map ;;
    v <- ref_get m [LOG_GROUP_NAME] ;;
    if negb (entry_truthy v) then
      let lsn := logStreamName log_stream in
      if _wanted_log_stream lsn then
        GlobalManager.set_log_stream_map [LOG_GROUP_NAME; lsn] None
      else ret tt
    else ret tt) ;;
  sequence_end (snd log_streams).

(** [discover_logs]: one round of the loop per listing the client gives.
    [Return] means every round so far completed and the loop goes on;
    [Raise] means an exception left the loop. *)
Fixpoint discover_logs (rounds : list listing) : M unit :=
  match rounds with
  | [] => ret tt
  | log_streams :: rest =>
      _discover_log_streams log_streams ;;
      discover_logs rest
  end.

Definition _get_new_log_streams : M (list tuple) :=
  m <- GlobalManager.get_log_stream_map ;;
  items <- ref_items m ;;
  ret (map fst (filter (fun kv => match snd kv with None => true | Some _ => false end)
                       items)).

(** [threading.Thread(target=self.write_log, args=...)] followed by
    [.start()]. *)
Definition start_thread (args : thread_args) : M thread :=
  fun st => (Return (length (threads st)), with_threads (threads st ++ [args]) st).

(** One round of the loop of [sync_new_logs]. *)
Definition sync_new_logs_round : M unit :=
  new_streams <- _get_new_log_streams ;;
  for_each new_streams (fun key =>
    match key with
    | [log_group_name; log_stream_name] =>
        let file_name := _get_file_name log_group_name log_stream_name in
        log_getter <- start_thread (mkThread file_name log_group_name log_stream_name) ;;
        GlobalManager.set_log_stream_map [log_group_name; log_stream_name] (Some log_getter)
    | _ => raise ValueError
    end).

Fixpoint sync_new_logs (rounds : nat) : M unit :=
  match rounds with
  | O => ret tt
  | S n => sync_new_logs_round ;; sync_new_logs n
  end.

(** One round of the loop of [persist_state]; [now] is what
    [time.asctime()] gives, [state] the local dictionary that lives
    across rounds. *)
Definition persist_state_round (location now : string) (state : dict string token)
    : M (dict string token) :=
  let state := dict_set "modified_time" (Some now) state in
  c <- GlobalManager.get_checkpoint ;;
  items <- ref_items c ;;
  let state := dict_update items state in
  let state_json := json_dumps encode_basestring_ascii state in
  _create_file_if_does_not_exist location ;;
  fhandle <- open_write location ;;
  fwrite fhandle state_json ;;
  fflush fhandle ;;
  fclose fhandle ;;
  ret state.

Fixpoint persist_state_loop (location : string) (clock : list string)
    (state : dict string token) : M (dict string token) :=
  match clock with
  | [] => ret state
  | now :: rest =>
      state' <- persist_state_round location now state ;;
      persist_state_loop location rest state'
  end.

Definition persist_state (location : string) (clock : list string)
    : M (dict string token) :=
  persist_state_loop location clock [].

End WithConfig.
End LogStreamHandler.

(* ------------------------------------------------------------------ *)
(** ** The readers beside the other threads

    The accessors of [GlobalManager] release the lock before they return,
    so what a reader does with the returned dictionary runs unprotected:
    other threads can run between the accessor and the use, and between
    two steps of a [for] loop over [.items()].  Here the readers are
    written one step at a time, with what the other threads do in
    between given as functions on the state. *)
Module Interleaved.

(** [len(r)], which the iterator of a dictionary notes when it is made. *)
Definition ref_len {K V} (r : ref (dict K V)) : M nat :=
  fun st => (Return (length (deref st r)), st).

(** The rest of a loop that nothing interrupts any more. *)
Fixpoint iterate_rest {K V A} (body : A -> K * V -> result A)
    (items : list (K * V)) (acc : A) : result A :=
  match items with
  | [] => Return acc
  | item :: rest =>
      match body acc item with
      | Return acc' => iterate_rest body rest acc'
      | Raise e => Raise e
      end
  end.

(** [for item in r.items(): acc = body(acc, item)] from position [pos] on.
    [others] holds, for each coming step of the iterator, what the other
    threads do just before it; once [others] is used up the rest of the
    loop runs undisturbed.  At every step the iterator first compares
    the size of the dictionary with the size [used] it noted, and raises
    when they differ; then it yields the item at its position, or ends. *)
Fixpoint iterate {K V A} (r : ref (dict K V)) (body : A -> K * V -> result A)
    (others : list (State -> State)) (used pos : nat) (acc : A) (st : State)
    {struct others} : result A * State :=
  match others with
  | [] =>
      let d := deref st r in
      if Nat.eqb (length d) used
      then (iterate_rest body (skipn pos d) acc, st)
      else (Raise RuntimeError, st)
  | other :: rest =>
      let st1 := other st in
      let d := deref st1 r in
      if Nat.eqb (length d) used then
        match nth_error d pos with
        | None => (Return acc, st1)
        | Some item =>
            match body acc item with
            | Return acc' => iterate r body rest used (S pos) acc' st1
            | Raise e => (Raise e, st1)
            end
        end
      else (Raise RuntimeError, st1)
  end.

(** The body of the loop of [_get_new_log_streams]. *)
Definition collect_new (new_streams : list tuple) (item : tuple * option thread)
    : result (list tuple) :=
  Return (match snd item with
          | None => new_streams ++ [fst item]
          | Some _ => new_streams
          end).

(** [LogStreamHandler._get_new_log_streams], step by step. *)
Definition _get_new_log_streams (others : list (State -> State)) : M (list tuple) :=
  m <- GlobalManager.get_log_stream_map ;;
  used <- ref_len m ;;
  iterate m collect_new others used 0 [].

Section Monitor.

(** [str] of a thread object, as [format] renders it. *)
Variable thread_str : thread -> string.

(** The message [log_status] logs for one entry; [None] renders as
    ["None"]. *)
Definition status_message (log_group log_stream : string) (v : option thread) : string :=
  ("Log Group: " ++ log_group ++ ", Stream: " ++ log_stream ++ " is processed by: "
     ++ match v with None => "None" | Some t => thread_str t end)%string.

(** The body of the loop of [log_status]: [_log_group_stream[0]] and
    [_log_group_stream[1]] need a tuple with two elements at least. *)
Definition log_entry (logged : list string) (item : tuple * option thread)
    : result (list string) :=
  match fst item with
  | log_group :: log_stream :: _ =>
      Return (logged ++ [status_message log_group log_stream (snd item)])
  | _ => Raise IndexError
  end.

(** One round of the loop of [LogProcessMonitor.log_status], step by
    step; the result is what it handed to [logging.info]. *)
Definition log_status (others : list (State -> State)) : M (list string) :=
  m <- GlobalManager.get_log_stream_map ;;
  used <- ref_len m ;;
  iterate m log_entry others used 0 [].

End Monitor.

Section Persister.
Variable encode_basestring_ascii : string -> string.

(** One round of the loop of [persist_state], with what the other
    threads do between the return of [get_checkpoint] and the call of
    [state.update]. *)
Definition persist_state_round (other : State -> State) (location now : string)
    (state : dict string token) : M (dict string token) :=
  let state := dict_set "modified_time" (Some now) state in
  c <- GlobalManager.get_checkpoint ;;
  modify other ;;
  items <- ref_items c ;;
  let state := dict_update items state in
  let state_json := json_dumps encode_basestring_ascii state in
  LogStreamHandler._create_file_if_does_not_exist location ;;
  fhandle <- open_write location ;;
  fwrite fhandle state_json ;;
  fflush fhandle ;;
  fclose fhandle ;;
  ret state.

End Persister.

End Interleaved.

(* ------------------------------------------------------------------ *)
(** ** The discovery and dispatch loops side by side *)

(** One step of the process: a round of [discover_logs] with the listing
    the client returned, or a round of [sync_new_logs]. *)
Inductive tick : Type :=
| Discover (log_streams : listing)
| Dispatch.

Section Schedule.
Variable LOG_GROUP_NAME AWS_LOGS_DIRECTORY : string.
Variable LOG_STREAMS_FILTER : option (list string).
Variable slugify : string -> string.

Definition run_tick (t : tick) : M unit :=
  match t with
  | Discover log_streams =>
      LogStreamHandler._discover_log_streams LOG_GROUP_NAME LOG_STREAMS_FILTER log_streams
  | Dispatch =>
      LogStreamHandler.sync_new_logs_round AWS_LOGS_DIRECTORY slugify
  end.

Definition run_ticks (ts : list tick) : M unit := for_each ts run_tick.

End Schedule.

(** The stream identity a worker thread was started for. *)
Definition thread_identity (t : thread_args) : string * string :=
  (th_log_group_name t, th_log_stream_name t).

(** The entries of the catalog that are keyed by a stream identity. *)
Definition identity_keys (st : State) : Prop :=
  Forall (fun k : tuple => length k = 2) (dict_keys (LOG_STREAM_MAP st)).

(** The catalog key a worker thread was started for. *)
Definition thread_key (t : thread_args) : tuple :=
  [th_log_group_name t; th_log_stream_name t].

(** The keys of the catalog entries whose value is [None], in catalog
    order. *)
Definition unclaimed (m : dict tuple (option thread)) : list tuple :=
  map fst (filter (fun kv => match snd kv with None => true | Some _ => false end) m).

(** Assigning to each key in turn the thread started for it, threads
    being numbered from [n]. *)
Fixpoint claim_all (ks : list tuple) (n : nat) (m : dict tuple (option thread))
    : dict tuple (option thread) :=
  match ks with
  | [] => m
  | k :: rest => claim_all rest (S n) (dict_set k (Some n) m)
  end.

(** What [d.get(key)] gives on the items of a dictionary. *)
Definition field (items : list (string * pyval)) (key : string) : pyval :=
  match items_get key items with Some x => x | None => PyNone end.

(** The log lines on which [process] reaches the reporting test: the
    line is a dictionary whose ['message'] is JSON text for a dictionary,
    whose own ['message'] is text that mentions [templatized_url] and is
    JSON text for a dictionary [inner]. *)
Definition carries_request (json_loads : string -> option pyval) (log_line : pyval)
    (inner : list (string * pyval)) : Prop :=
  exists items s1 outer s2,
    log_line = PyDict items /\
    items_get "message" items = Some (PyStr s1) /\
    json_loads s1 = Some (PyDict outer) /\
    items_get "message" outer = Some (PyStr s2) /\
    str_contains "templatized_url" s2 = true /\
    json_loads s2 = Some (PyDict inner).

(** The call [process] makes for the decoded request [inner]. *)
Definition request_call (CWL_ENV : string) (inner : list (string * pyval)) : track_call :=
  mkTrack (field inner "app_id") "API Request"
    [("url", field inner "templatized_url"); ("full_url", field inner "request_url");
     ("app_id", field inner "app_id"); ("env", PyStr CWL_ENV)].

(** What a worker on [file_name] may change: the states agree on the
    catalog, on the started threads and on every other file. *)
Definition same_except_file (file_name : string) (st st' : State) : Prop :=
  LOG_STREAM_MAP st' = LOG_STREAM_MAP st /\
  threads st' = threads st /\
  forall path, path <> file_name -> dict_get path (files st') = dict_get path (files st).

(** A state in which the stream ["b"] has its thread and the streams
    ["a"] and ["c"] wait for one. *)
Definition example_state : State :=
  with_threads [mkThread "logs/g/b.log" "g" "b"]
    (with_LOG_STREAM_MAP
       [(["g"; "a"], None); (["g"; "b"], Some 0); (["g"; "c"], None)] initial_state).

(** A log line as the client yields it, with the two JSON texts it nests
    and a decoder that knows these two texts. *)
Definition example_inner_text : string :=
  ("{" ++ dquote ++ "templatized_url" ++ dquote ++ ": " ++ dquote ++ "/v1/apps/:id" ++ dquote
   ++ ", " ++ dquote ++ "request_url" ++ dquote ++ ": " ++ dquote ++ "/v1/apps/7" ++ dquote
   ++ ", " ++ dquote ++ "app_id" ++ dquote ++ ": " ++ dquote ++ "app-7" ++ dquote
   ++ "}")%string.

Definition example_outer_text : string :=
  ("{" ++ dquote ++ "message" ++ dquote ++ ": " ++ dquote
   ++ escape_string example_inner_text ++ dquote ++ "}")%string.

Definition example_json_loads (text : string) : option pyval :=
  if String.eqb text example_outer_text
  then Some (PyDict [("message", PyStr example_inner_text)])
  else if String.eqb text example_inner_text
  then Some (PyDict [("templatized_url", PyStr "/v1/apps/:id");
                     ("request_url", PyStr "/v1/apps/7");
                     ("app_id", PyStr "app-7")])
  else None.

Definition example_log_line : pyval :=
  PyDict [("timestamp", PyInt 1500000000000); ("message", PyStr example_outer_text)].

(** What the loop of [_get_new_log_streams] adds for one item, and what
    the loop of [log_status] logs for one item. *)
Definition new_of (item : tuple * option thread) : list tuple :=
  match snd item with None => [fst item] | Some _ => [] end.

Definition message_of (thread_str : thread -> string) (item : tuple * option thread)
    : list string :=
  match fst item with
  | log_group :: log_stream :: _ =>
      [Interleaved.status_message thread_str log_group log_stream (snd item)]
  | _ => []
  end.

(** [n] steps of a loop during which the other threads do nothing. *)
Definition quiet (n : nat) : list (State -> State) := repeat (fun st => st) n.

(** Every thread object in the catalog is a started thread, and it was
    started for the identity it is stored under. *)
Definition handles_valid (st : State) : Prop :=
  forall (k : tuple) (t : thread),
    dict_get k (LOG_STREAM_MAP st) = Some (Some t) ->
    exists a, nth_error (threads st) t = Some a /\ thread_key a = k.

(** The checkpoint writes and the file calls among a list of events. *)
Definition checkpoint_writes (evs : list event) : list (string * token) :=
  flat_map (fun e => match e with
                     | EvSetCheckpoint k t => [(k, t)]
                     | _ => []
                     end) evs.

Definition file_calls (evs : list event) : list event :=
  filter (fun e => match e with
                   | EvSetCheckpoint _ _ => false
                   | _ => true
                   end) evs.

(** The text a worker adds to its file for a list of events: the [str]
    of each, followed by a line feed. *)
Fixpoint lines_of {LogEvent} (str : LogEvent -> string) (logs : list LogEvent) : string :=
  match logs with
  | [] => ""
  | r :: rest => (str r ++ nl ++ lines_of str rest)%string
  end.

(** The calls a worker makes for one page, and for a whole source. *)
Definition page_events {LogEvent} (str : LogEvent -> string)
    (file_name log_stream_name : string) (page : list LogEvent * token) : list event :=
  flat_map (fun r => [EvWrite file_name (str r ++ nl)%string; EvFlush file_name]) (fst page)
    ++ [EvSetCheckpoint log_stream_name (snd page)].

Definition write_log_events {LogEvent} (str : LogEvent -> string)
    (file_name log_stream_name : string)
    (source : list (list LogEvent * token) * option exn) : list event :=
  flat_map (page_events str file_name log_stream_name) (fst source)
    ++ match snd source with None => [EvClose file_name] | Some _ => [] end.

(** Assigning [None] under [(group, name)] for each name in turn. *)
Definition register_all (group : string) (names : list string)
    (m : dict tuple (option thread)) : dict tuple (option thread) :=
  fold_left (fun m n => dict_set [group; n] None m) names m.

(** What one iteration of the loop of [_discover_log_streams] does to the
    state when there is no thread object under the one-element key. *)
Definition register_step (group : string) (allow : option (list string))
    (log_stream : log_stream) (s : State) : State :=
  if LogStreamHandler._wanted_log_stream allow (logStreamName log_stream)
  then with_LOG_STREAM_MAP
         (dict_set [group; logStreamName log_stream] None (LOG_STREAM_MAP s)) s
  else s.

(** The local dictionary of [persist_state] after a round that read the
    clock as [now] and the checkpoint store as [cp]. *)
Definition persisted_state (now : string) (cp state : dict string token)
    : dict string token :=
  dict_update cp (dict_set "modified_time" (Some now) state).

(** A listing that ends without an exception. *)
Definition listing_ok (l : listing) : Prop := snd l = None.

(* ================================================================== *)
(** * Part II: properties *)

(** ** Strings *)

Lemma string_app_nil_r (s : string) : (s ++ "")%string = s.
Proof. induction s as [|c s IH]; simpl; [reflexivity | now rewrite IH]. Qed.

Lemma string_app_assoc (a b c : string) :
  ((a ++ b) ++ c)%string = (a ++ (b ++ c))%string.
Proof. induction a as [|x a IH]; simpl; [reflexivity | now rewrite IH]. Qed.

(** ** Keys *)

#[export] Instance string_PyKeyOk : PyKeyOk string.
Proof. intros a b. apply String.eqb_eq. Qed.

#[export] Instance nat_PyKeyOk : PyKeyOk nat.
Proof. intros a b. apply Nat.eqb_eq. Qed.

#[export] Instance tuple_PyKeyOk : PyKeyOk tuple.
Proof.
  intros a. unfold key_eqb, tuple_PyKey.
  induction a as [|x a IH]; intros [|y b]; simpl;
    try (split; [discriminate | congruence]); [tauto|].
  rewrite andb_true_iff, String.eqb_eq, IH.
  split; [intros [-> ->]; reflexivity | intros H; inversion H; auto].
Qed.

(** ** Dictionaries *)

Section DictFacts.
Context {K V : Type} {E : PyKey K} {Ok : PyKeyOk K}.
Implicit Types (k : K) (v : V) (d : dict K V).

Lemma key_eqb_refl k : key_eqb k k = true.
Proof. now apply key_eqb_eq. Qed.

Lemma key_eqb_neq (a b : K) : key_eqb a b = false <-> a <> b.
Proof.
  destruct (key_eqb a b) eqn:Eab.
  - apply key_eqb_eq in Eab. split; [discriminate | congruence].
  - split; [|reflexivity]. intros _ Hab. apply key_eqb_eq in Hab. congruence.
Qed.

Lemma dict_get_set_eq k v d : dict_get k (dict_set k v d) = Some v.
Proof.
  induction d as [|[k' v'] r IH]; simpl.
  - now rewrite key_eqb_refl.
  - destruct (key_eqb k k') eqn:Ek; simpl; rewrite Ek; auto.
Qed.

Lemma dict_get_set_ne k k' v d : k <> k' -> dict_get k' (dict_set k v d) = dict_get k' d.
Proof.
  intros Hne. induction d as [|[k0 v0] r IH]; simpl.
  - assert (key_eqb k' k = false) as -> by (apply key_eqb_neq; congruence).
    reflexivity.
  - destruct (key_eqb k k0) eqn:Ek; simpl.
    + apply key_eqb_eq in Ek; subst k0.
      assert (key_eqb k' k = false) as -> by (apply key_eqb_neq; congruence).
      reflexivity.
    + now rewrite IH.
Qed.

Lemma dict_get_In k d : (exists v, dict_get k d = Some v) <-> In k (dict_keys d).
Proof.
  induction d as [|[k' v'] r IH]; simpl.
  - split; [intros [v Hv]; discriminate | tauto].
  - destruct (key_eqb k k') eqn:Ek.
    + apply key_eqb_eq in Ek; subst. split; eauto.
    + apply key_eqb_neq in Ek. rewrite IH. split; [tauto|].
      intros [Hk|Hk]; [congruence | assumption].
Qed.

Lemma dict_get_None k d : dict_get k d = None <-> ~ In k (dict_keys d).
Proof.
  rewrite <- dict_get_In. destruct (dict_get k d); split; try congruence.
  - intros Hn. exfalso. apply Hn. eauto.
  - intros _ [v Hv]. discriminate.
Qed.

Lemma dict_In_keys_dec k d : {In k (dict_keys d)} + {~ In k (dict_keys d)}.
Proof.
  destruct (dict_get k d) eqn:Ek.
  - left. apply dict_get_In. eauto.
  - right. now apply dict_get_None.
Qed.

(** Assignment to a present key keeps the key sequence. *)
Lemma dict_keys_set_present k v d : In k (dict_keys d) -> dict_keys (dict_set k v d) = dict_keys d.
Proof.
  induction d as [|[k' v'] r IH]; simpl; [tauto|].
  intros Hin. destruct (key_eqb k k') eqn:Ek; simpl; [reflexivity|].
  f_equal. apply IH. destruct Hin as [Hk|Hk]; [|assumption].
  apply key_eqb_neq in Ek. congruence.
Qed.

(** Assignment to a fresh key appends it. *)
Lemma dict_set_fresh k v d : ~ In k (dict_keys d) -> dict_set k v d = d ++ [(k, v)].
Proof.
  induction d as [|[k' v'] r IH]; simpl; [reflexivity|].
  intros Hn. destruct (key_eqb k k') eqn:Ek.
  - apply key_eqb_eq in Ek. subst. tauto.
  - f_equal. apply IH. tauto.
Qed.

Lemma dict_In_keys_set k k' v d :
  In k' (dict_keys (dict_set k v d)) <-> k' = k \/ In k' (dict_keys d).
Proof.
  induction d as [|[k0 v0] r IH]; simpl.
  - intuition congruence.
  - destruct (key_eqb k k0) eqn:Ek; simpl.
    + apply key_eqb_eq in Ek; subst. intuition congruence.
    + rewrite IH. tauto.
Qed.

Lemma dict_NoDup_keys_set k v d : NoDup (dict_keys d) -> NoDup (dict_keys (dict_set k v d)).
Proof.
  destruct (dict_In_keys_dec k d) as [Hin|Hn].
  - now rewrite dict_keys_set_present.
  - rewrite dict_set_fresh by assumption. unfold dict_keys. rewrite map_app. simpl.
    intros Hnd. apply NoDup_app; [assumption | repeat constructor; simpl; tauto |].
    intros x Hx [Hk|[]]. subst. tauto.
Qed.

Lemma dict_set_set k v v' d : dict_set k v (dict_set k v' d) = dict_set k v d.
Proof.
  induction d as [|[k0 v0] r IH]; simpl.
  - now rewrite key_eqb_refl.
  - destruct (key_eqb k k0) eqn:Ek; simpl; rewrite Ek; [reflexivity|].
    now rewrite IH.
Qed.

(** An in-place assignment commutes with any other assignment. *)
Lemma dict_set_comm k k' v v' d :
  k <> k' -> In k (dict_keys d) ->
  dict_set k v (dict_set k' v' d) = dict_set k' v' (dict_set k v d).
Proof.
  intros Hne. induction d as [|[k0 v0] r IH]; simpl; [tauto|].
  intros Hin.
  destruct (key_eqb k' k0) eqn:Ek'; destruct (key_eqb k k0) eqn:Ek;
    simpl; rewrite ?Ek, ?Ek'; try reflexivity.
  - apply key_eqb_eq in Ek, Ek'. congruence.
  - f_equal. apply IH. destruct Hin as [Hk|Hk]; [|assumption].
    apply key_eqb_neq in Ek. congruence.
Qed.

Lemma dict_update_cons k v src d : dict_update ((k, v) :: src) d = dict_update src (dict_set k v d).
Proof. reflexivity. Qed.

Lemma dict_In_keys_update k src d : In k (dict_keys d) -> In k (dict_keys (dict_update src d)).
Proof.
  revert d; induction src as [|[k0 v0] src IH]; intros d Hin; simpl; [assumption|].
  apply IH. apply dict_In_keys_set. now right.
Qed.

(** A key that [src] does not mention can be assigned before or after
    the update, provided it is already present. *)
Lemma dict_set_update_comm k v src d :
  ~ In k (dict_keys src) -> In k (dict_keys d) ->
  dict_set k v (dict_update src d) = dict_update src (dict_set k v d).
Proof.
  revert d; induction src as [|[k0 v0] src IH]; intros d Hn Hin; simpl in *;
    [reflexivity|].
  rewrite IH; [|tauto|apply dict_In_keys_set; now right].
  f_equal. apply dict_set_comm; [intros ->; tauto | assumption].
Qed.

(** A present key that [src] assigns anyway can be pre-assigned freely. *)
Lemma dict_update_set_overwritten k v src d :
  In k (dict_keys src) -> In k (dict_keys d) ->
  dict_update src (dict_set k v d) = dict_update src d.
Proof.
  revert d; induction src as [|[k0 v0] src IH]; intros d Hs Hin; simpl in *;
    [tauto|].
  destruct (key_eqb k k0) eqn:Ek.
  - apply key_eqb_eq in Ek. subst k0. now rewrite dict_set_set.
  - apply key_eqb_neq in Ek.
    rewrite <- dict_set_comm by (auto; congruence).
    apply IH.
    + destruct Hs as [Hk|Hk]; [congruence | assumption].
    + apply dict_In_keys_set. now right.
Qed.

Lemma dict_update_idem src d : dict_update src (dict_update src d) = dict_update src d.
Proof.
  revert d; induction src as [|[k v] src IH]; intros d; [reflexivity|].
  rewrite !dict_update_cons.
  assert (Hk : In k (dict_keys (dict_set k v d))) by (apply dict_In_keys_set; now left).
  destruct (dict_In_keys_dec k src) as [Hin|Hn].
  - rewrite dict_update_set_overwritten; auto using dict_In_keys_update.
  - rewrite dict_set_update_comm by assumption. rewrite dict_set_set. apply IH.
Qed.

(** Splitting a dictionary at the first occurrence of a present key. *)
Lemma dict_set_split k d :
  In k (dict_keys d) ->
  exists l1 v0 l2, d = l1 ++ (k, v0) :: l2 /\ dict_get k d = Some v0 /\
    forall v, dict_set k v d = l1 ++ (k, v) :: l2.
Proof.
  induction d as [|[k0 v0] r IH]; simpl; [tauto|].
  intros Hin. destruct (key_eqb k k0) eqn:Ek.
  - apply key_eqb_eq in Ek. subst k0. exists [], v0, r. repeat split; reflexivity.
  - apply key_eqb_neq in Ek.
    destruct IH as (l1 & w & l2 & Hd & Hg & Hs).
    { destruct Hin as [Hk|Hk]; [congruence | assumption]. }
    exists ((k0, v0) :: l1), w, l2. split; [|split].
    + simpl. now rewrite Hd.
    + exact Hg.
    + intros v. simpl. now rewrite Hs.
Qed.

(** Assigning the value a key already has changes nothing. *)
Lemma dict_set_same k v d : dict_get k d = Some v -> dict_set k v d = d.
Proof.
  induction d as [|[k0 v0] r IH]; simpl; [discriminate|].
  destruct (key_eqb k k0) eqn:Ek.
  - intros [= ->]. reflexivity.
  - intros Hg. now rewrite IH.
Qed.

End DictFacts.

(** ** [MixpanelConsumer.should_report] *)

Lemma py_eq_str_true (v : pyval) (s : string) : py_eq_str v s = true <-> v = PyStr s.
Proof.
  destruct v; simpl; try (split; [discriminate | congruence]).
  rewrite String.eqb_eq. split; [congruence | intros [= ->]; reflexivity].
Qed.

Lemma py_eq_str_false (v : pyval) (s : string) : py_eq_str v s = false <-> v <> PyStr s.
Proof.
  rewrite <- py_eq_str_true. destruct (py_eq_str v s); split; congruence.
Qed.

(** C10: [should_report(url, app_id)] is [True] exactly when [url] is
    truthy, [url] is not the string ["/"] and [app_id] is truthy; it is
    [False] exactly when [url] is falsy (for a string: empty; also
    [None]), [url] is ["/"], or [app_id] is falsy (in particular [None],
    its default). *)
Theorem should_report_spec (url app_id : pyval) :
  (MixpanelConsumer.should_report url app_id = true <->
     truthy url = true /\ url <> PyStr "/" /\ truthy app_id = true) /\
  (MixpanelConsumer.should_report url app_id = false <->
     truthy url = false \/ url = PyStr "/" \/ truthy app_id = false) /\
  truthy PyNone = false /\ truthy (PyStr "") = false /\
  MixpanelConsumer.should_report_default url = false.
Proof.
  unfold MixpanelConsumer.should_report_default, MixpanelConsumer.should_report.
  rewrite <- py_eq_str_false, <- py_eq_str_true.
  destruct (truthy url), (py_eq_str url "/"), (truthy app_id); simpl;
    intuition congruence.
Qed.

(** ** Running monadic code *)

(** A loop whose body always returns runs as a fold over the state, and
    keeps any invariant the body keeps. *)
Lemma for_each_fold {A} (P : State -> Prop) (body : A -> M unit)
    (step : A -> State -> State) :
  (forall x s, P s -> body x s = (Return tt, step x s) /\ P (step x s)) ->
  forall l s, P s ->
    for_each l body s = (Return tt, fold_left (fun s x => step x s) l s) /\
    P (fold_left (fun s x => step x s) l s).
Proof.
  intros Hbody. induction l as [|x l IH]; intros s Hs; simpl.
  - split; [reflexivity | assumption].
  - destruct (Hbody x s Hs) as [Hx HP]. unfold bind. rewrite Hx. now apply IH.
Qed.

Lemma for_each_total {A} (body : A -> M unit) :
  (forall x s, exists s', body x s = (Return tt, s')) ->
  forall l s, exists s', for_each l body s = (Return tt, s').
Proof.
  intros Hbody. induction l as [|x l IH]; intros s; simpl.
  - eexists; reflexivity.
  - destruct (Hbody x s) as [s1 Hx]. unfold bind. rewrite Hx. apply IH.
Qed.

(** ** [GlobalManager]: what the accessors return *)

(** C3, refuted as stated: the value [get_log_stream_map] returned on the
    empty catalog reads as [{}] before and as [{("g", "s1"): None}] after
    a later [set_log_stream_map]; likewise the value [get_checkpoint]
    returned reads as [{}] before and [{"s1": "tok1"}] after a later
    [set_checkpoint]. *)
Lemma snapshot_not_a_copy :
  let r := Global LOG_STREAM_MAP in
  let c := Global LOG_STREAM_CHECKPOINT in
  let st1 := exec (GlobalManager.set_log_stream_map ["g"; "s1"] None) initial_state in
  let st2 := exec (GlobalManager.set_checkpoint "s1" (Some "tok1")) initial_state in
  outcome GlobalManager.get_log_stream_map initial_state = Return r /\
  outcome GlobalManager.get_checkpoint initial_state = Return c /\
  deref initial_state r = [] /\
  deref st1 r = [(["g"; "s1"], None)] /\
  deref initial_state c = [] /\
  deref st2 c = [("s1", Some "tok1")] /\
  deref st1 r <> deref initial_state r /\
  deref st2 c <> deref initial_state c.
Proof. repeat split; discriminate. Qed.

(** ** Discovery *)

Section Discovery.
Variable LOG_GROUP_NAME : string.
Variable LOG_STREAMS_FILTER : option (list string).

Local Notation "'discover'" :=
  (LogStreamHandler._discover_log_streams LOG_GROUP_NAME LOG_STREAMS_FILTER).
Local Notation "'wanted'" := (LogStreamHandler._wanted_log_stream LOG_STREAMS_FILTER).

Lemma wanted_iff (name : string) :
  wanted name = true <->
  LOG_STREAMS_FILTER = None \/ exists names, LOG_STREAMS_FILTER = Some names /\ In name names.
Proof.
  unfold LogStreamHandler._wanted_log_stream.
  destruct LOG_STREAMS_FILTER as [names|].
  - rewrite existsb_exists. split.
    + intros (x & Hx & Heq). apply String.eqb_eq in Heq. subst. right. eauto.
    + intros [Hn|(l & [= <-] & Hin)]; [discriminate|].
      exists name. split; [assumption | apply String.eqb_refl].
  - split; auto.
Qed.

Lemma identity_keys_no_group_entry (st : State) :
  identity_keys st -> dict_get [LOG_GROUP_NAME] (LOG_STREAM_MAP st) = None.
Proof.
  intros Hk. apply dict_get_None. intros Hin.
  unfold identity_keys in Hk. rewrite Forall_forall in Hk.
  apply Hk in Hin. discriminate.
Qed.

(** A listing that ends normally never makes a round raise, and one that
    ends with an exception makes the round raise it after the same
    assignments. *)
Lemma discover_outcome (ds : list log_stream) (fin : option exn) (st : State) :
  discover (ds, fin) st =
    (match fin with None => Return tt | Some e => Raise e end,
     exec (discover (ds, None)) st).
Proof.
  unfold LogStreamHandler._discover_log_streams, exec. simpl fst. simpl snd.
  match goal with |- context [for_each ds ?b] => set (body := b) end.
  destruct (@for_each_total _ body) with (l := ds) (s := st) as [s' Hs'].
  { intros x s. subst body. cbv beta.
    unfold GlobalManager.get_log_stream_map, ref_get, bind, ret.
    destruct (negb _); [destruct (wanted _)|]; eexists; reflexivity. }
  unfold bind. rewrite Hs'. destruct fin; reflexivity.
Qed.

Lemma register_steps (l : list log_stream) (s : State) :
  fold_left (fun s x => register_step LOG_GROUP_NAME LOG_STREAMS_FILTER x s) l s =
  with_LOG_STREAM_MAP
    (register_all LOG_GROUP_NAME (filter wanted (map logStreamName l)) (LOG_STREAM_MAP s)) s.
Proof.
  revert s. induction l as [|x l IH]; intros s; simpl.
  - destruct s; reflexivity.
  - rewrite IH. unfold register_step. destruct (wanted (logStreamName x)); reflexivity.
Qed.

(** With no thread object under the one-element key, a round assigns
    [None] under the identity of every wanted stream, in listing order. *)
Lemma discover_catalog (ds : list log_stream) (fin : option exn) (st : State) :
  LogStreamHandler.entry_truthy (dict_get [LOG_GROUP_NAME] (LOG_STREAM_MAP st)) = false ->
  exec (discover (ds, fin)) st =
    with_LOG_STREAM_MAP
      (register_all LOG_GROUP_NAME (filter wanted (map logStreamName ds)) (LOG_STREAM_MAP st))
      st.
Proof.
  intros Hst. unfold exec at 1. rewrite discover_outcome. simpl snd.
  unfold LogStreamHandler._discover_log_streams, exec. simpl fst. simpl snd.
  match goal with |- context [for_each ds ?b] => set (body := b) end.
  destruct (@for_each_fold _
    (fun s => LogStreamHandler.entry_truthy
                (dict_get [LOG_GROUP_NAME] (LOG_STREAM_MAP s)) = false)
    body (register_step LOG_GROUP_NAME LOG_STREAMS_FILTER)) with (l := ds) (s := st) as [Hrun _]; [|assumption|].
  { intros x s Hs. subst body. cbv beta.
    unfold GlobalManager.get_log_stream_map, ref_get, bind, ret, register_step.
    cbv beta. unfold deref, tuple in *. rewrite Hs. simpl negb. cbv iota.
    destruct (wanted (logStreamName x)); [|split; [reflexivity | assumption]].
    split; [reflexivity|]. simpl.
    rewrite dict_get_set_ne; [assumption | discriminate]. }
  unfold bind. rewrite Hrun. simpl. apply register_steps.
Qed.

Lemma In_keys_register_all (names : list string) (m : dict tuple (option thread)) (k : tuple) :
  In k (dict_keys (register_all LOG_GROUP_NAME names m)) <->
  In k (dict_keys m) \/ exists n, In n names /\ k = [LOG_GROUP_NAME; n].
Proof.
  revert m. induction names as [|n names IH]; intros m; simpl.
  - split; [auto | intros [H|(n & [] & _)]; assumption].
  - rewrite IH, dict_In_keys_set. split.
    + intros [[->|H]|(n' & Hn' & ->)]; eauto.
    + intros [H|(n' & [->|Hn'] & ->)]; eauto.
Qed.

End Discovery.

Lemma get_register_all (group : string) (names : list string)
    (m : dict tuple (option thread)) (n : string) :
  In n names \/ dict_get [group; n] m = Some None ->
  dict_get [group; n] (register_all group names m) = Some None.
Proof.
  revert m. induction names as [|a names IH]; intros m; simpl.
  - intros [[]|H]; assumption.
  - intros H. apply IH.
    destruct (string_dec a n) as [->|Hne].
    + right. apply dict_get_set_eq.
    + destruct H as [[Ha|Hin]|Hm]; [congruence | now left | right].
      rewrite dict_get_set_ne; [assumption | congruence].
Qed.

Lemma NoDup_keys_register_all (group : string) (names : list string)
    (m : dict tuple (option thread)) :
  NoDup (dict_keys m) -> NoDup (dict_keys (register_all group names m)).
Proof.
  revert m. induction names as [|a names IH]; intros m Hm; simpl; [assumption|].
  apply IH. now apply dict_NoDup_keys_set.
Qed.

(** A discovery round keeps the catalog keyed by identities, one entry
    per identity. *)
Lemma discover_keeps_catalog_shape (LOG_GROUP_NAME : string)
    (LOG_STREAMS_FILTER : option (list string)) (log_streams : listing) (st : State) :
  identity_keys st -> NoDup (dict_keys (LOG_STREAM_MAP st)) ->
  let st' := exec (LogStreamHandler._discover_log_streams
                     LOG_GROUP_NAME LOG_STREAMS_FILTER log_streams) st in
  identity_keys st' /\ NoDup (dict_keys (LOG_STREAM_MAP st')).
Proof.
  intros Hk Hnd. destruct log_streams as [ds fin]. cbv zeta.
  rewrite discover_catalog
    by (rewrite (identity_keys_no_group_entry LOG_GROUP_NAME Hk); reflexivity).
  split; [|now apply NoDup_keys_register_all].
  unfold identity_keys in *. simpl. rewrite Forall_forall in *.
  intros k Hin. apply In_keys_register_all in Hin.
  destruct Hin as [Hin|(n & _ & ->)]; [now apply Hk | reflexivity].
Qed.

(** C8: one discovery round over a catalog keyed by identities assigns
    [None] under [(LOG_GROUP_NAME, name)] for exactly the listed names
    that pass [_wanted_log_stream]; a listed stream that had no entry has
    one afterwards if and only if no allow-list is configured or its name
    is in the allow-list, and no other entry appears. *)
Theorem discovery_applies_allow_list (LOG_GROUP_NAME : string)
    (LOG_STREAMS_FILTER : option (list string))
    (ds : list log_stream) (fin : option exn) (st : State) :
  identity_keys st ->
  let st' := exec (LogStreamHandler._discover_log_streams
                     LOG_GROUP_NAME LOG_STREAMS_FILTER (ds, fin)) st in
  LOG_STREAM_MAP st' =
    register_all LOG_GROUP_NAME
      (filter (LogStreamHandler._wanted_log_stream LOG_STREAMS_FILTER) (map logStreamName ds))
      (LOG_STREAM_MAP st) /\
  (forall name,
     In name (map logStreamName ds) ->
     ~ In [LOG_GROUP_NAME; name] (dict_keys (LOG_STREAM_MAP st)) ->
     (In [LOG_GROUP_NAME; name] (dict_keys (LOG_STREAM_MAP st')) <->
      LOG_STREAMS_FILTER = None \/
      exists names, LOG_STREAMS_FILTER = Some names /\ In name names)) /\
  (forall k,
     In k (dict_keys (LOG_STREAM_MAP st')) ->
     In k (dict_keys (LOG_STREAM_MAP st)) \/
     exists name, In name (map logStreamName ds) /\
                  LogStreamHandler._wanted_log_stream LOG_STREAMS_FILTER name = true /\
                  k = [LOG_GROUP_NAME; name]).
Proof.
  intros Hk. cbv zeta.
  rewrite discover_catalog
    by (rewrite (identity_keys_no_group_entry LOG_GROUP_NAME Hk); reflexivity).
  simpl LOG_STREAM_MAP. split; [reflexivity|]. split.
  - intros name Hin Hfresh. rewrite In_keys_register_all, <- wanted_iff. split.
    + intros [H|(n & Hn & [= <-])]; [tauto|].
      apply filter_In in Hn. tauto.
    + intros Hw. right. exists name. split; [|reflexivity].
      apply filter_In. tauto.
  - intros k Hin. apply In_keys_register_all in Hin.
    destruct Hin as [H|(n & Hn & ->)]; [now left | right].
    apply filter_In in Hn. exists n. tauto.
Qed.

(** The scenario of C8: allow-list [{"streamA"}], listing
    [["streamA", "streamB"]], empty catalog. *)
Lemma discovery_applies_allow_list_witness :
  identity_keys initial_state /\
  LOG_STREAM_MAP
    (exec (LogStreamHandler._discover_log_streams "g" (Some ["streamA"])
             ([mkLogStream "streamA"; mkLogStream "streamB"], None))
          initial_state)
  = [(["g"; "streamA"], None)].
Proof.
  split; [constructor|].
  destruct (@discovery_applies_allow_list "g" (Some ["streamA"])
              [mkLogStream "streamA"; mkLogStream "streamB"] None initial_state)
    as [Hmap _]; [constructor | exact Hmap].
Defined.

(** C4 (as amended): an exception raised by the listing is not caught.
    It leaves [_discover_log_streams] and ends [discover_logs] in the
    round where it is raised: the state is the one the rounds up to and
    including that listing produced, and the listings that would have
    followed are never requested.  The loop keeps going exactly as long
    as no listing raises. *)
Theorem discover_logs_ends_on_listing_failure (LOG_GROUP_NAME : string)
    (LOG_STREAMS_FILTER : option (list string))
    (before : list listing) (ds : list log_stream) (e : exn) (after : list listing)
    (st : State) :
  Forall listing_ok before ->
  LogStreamHandler.discover_logs LOG_GROUP_NAME LOG_STREAMS_FILTER
    (before ++ (ds, Some e) :: after) st
  = (Raise e,
     exec (LogStreamHandler.discover_logs LOG_GROUP_NAME LOG_STREAMS_FILTER
             (before ++ [(ds, None)])) st) /\
  outcome (LogStreamHandler.discover_logs LOG_GROUP_NAME LOG_STREAMS_FILTER before) st
  = Return tt.
Proof.
  revert st. induction before as [|[ds0 fin0] before IH]; intros st Hok.
  - simpl. unfold bind, exec, outcome. rewrite !discover_outcome. simpl. auto.
  - inversion Hok as [|? ? H0 Hrest]; subst. unfold listing_ok in H0. simpl in H0.
    subst fin0. simpl. unfold bind, exec, outcome in *.
    rewrite discover_outcome. apply IH. assumption.
Qed.

Lemma discover_logs_ends_on_listing_failure_witness :
  Forall listing_ok [([mkLogStream "s1"], None)] /\
  LogStreamHandler.discover_logs "g" None
    ([([mkLogStream "s1"], None)]
       ++ ([mkLogStream "s2"], Some (ClientError "throttled"))
       :: [([mkLogStream "s3"], None)])
    initial_state
  = (Raise (ClientError "throttled"),
     with_LOG_STREAM_MAP [(["g"; "s1"], None); (["g"; "s2"], None)] initial_state).
Proof.
  assert (Hok : Forall listing_ok [([mkLogStream "s1"], @None exn)]).
  { constructor; [reflexivity | constructor]. }
  split; [exact Hok|].
  destruct (@discover_logs_ends_on_listing_failure "g" None
              [([mkLogStream "s1"], None)] [mkLogStream "s2"]
              (ClientError "throttled") [([mkLogStream "s3"], None)]
              initial_state Hok) as [Hrun _].
  exact Hrun.
Defined.

(** C4, refuted as stated: the first listing raises, the second would
    list ["s1"].  [discover_logs] ends with the exception and ["s1"] is
    never registered, although the same rounds without the failure
    register it. *)
Lemma discover_logs_does_not_survive_failure :
  LogStreamHandler.discover_logs "g" None
    [([], Some (ClientError "throttled")); ([mkLogStream "s1"], None)] initial_state
  = (Raise (ClientError "throttled"), initial_state) /\
  LogStreamHandler.discover_logs "g" None
    [([], None); ([mkLogStream "s1"], None)] initial_state
  = (Return tt, with_LOG_STREAM_MAP [(["g"; "s1"], None)] initial_state).
Proof. split; reflexivity. Qed.

(** ** File objects *)

Lemma fwrite_run (fhandle : nat) (data path buf : string) (st : State) :
  dict_get fhandle (open_files st) = Some (path, buf) ->
  fwrite fhandle data st =
    (Return tt,
     log_event (EvWrite path data)
       (with_open_files (dict_set fhandle (path, (buf ++ data)%string) (open_files st)) st)).
Proof. unfold fwrite. now intros ->. Qed.

Lemma fflush_run (fhandle : nat) (path buf : string) (st : State) :
  dict_get fhandle (open_files st) = Some (path, buf) ->
  fflush fhandle st = (Return tt, log_event (EvFlush path) (commit fhandle path buf st)).
Proof. unfold fflush. now intros ->. Qed.

Lemma fclose_run (fhandle : nat) (path buf : string) (st : State) :
  dict_get fhandle (open_files st) = Some (path, buf) ->
  fclose fhandle st =
    (Return tt,
     log_event (EvClose path)
       (with_open_files
          (dict_remove fhandle (open_files (commit fhandle path buf st)))
          (commit fhandle path buf st))).
Proof. unfold fclose. now intros ->. Qed.

Lemma file_content_get (st : State) (path c : string) :
  dict_get path (files st) = Some c -> file_content st path = c.
Proof. unfold file_content. now intros ->. Qed.

(** ** The worker: [write_log] *)

Section Worker.
Variable LogEvent : Type.
Variable str : LogEvent -> string.

Lemma lines_of_app (l1 l2 : list LogEvent) :
  lines_of str (l1 ++ l2) = (lines_of str l1 ++ lines_of str l2)%string.
Proof.
  induction l1 as [|r l1 IH]; simpl; [reflexivity|].
  now rewrite IH, !string_app_assoc.
Qed.

(** The inner loop: every event is written and flushed at once, so the
    buffer of the file object is empty again after each of them. *)
Lemma write_events_run (fhandle : nat) (file_name : string) (logs : list LogEvent) :
  forall (st : State) (c : string),
  dict_get fhandle (open_files st) = Some (file_name, "") ->
  dict_get file_name (files st) = Some c ->
  exists st',
    for_each logs (fun _log =>
      fwrite fhandle (str _log ++ nl)%string ;; fflush fhandle) st = (Return tt, st') /\
    dict_get fhandle (open_files st') = Some (file_name, "") /\
    dict_get file_name (files st') = Some (c ++ lines_of str logs)%string /\
    trace st' = trace st ++
      flat_map (fun r => [EvWrite file_name (str r ++ nl)%string; EvFlush file_name]) logs /\
    LOG_STREAM_CHECKPOINT st' = LOG_STREAM_CHECKPOINT st.
Proof.
  induction logs as [|r logs IH]; intros st c Hfd Hfile.
  - exists st. simpl. rewrite string_app_nil_r, app_nil_r. auto.
  - simpl for_each. unfold bind at 1. unfold bind at 1.
    erewrite fwrite_run by exact Hfd.
    erewrite fflush_run by (simpl; apply dict_get_set_eq).
    match goal with |- context [for_each logs _ ?s] => set (s2 := s) end.
    destruct (IH s2 (c ++ (str r ++ nl))%string) as (st' & Hrun & Hfd' & Hfile' & Htr & Hcp).
    + subst s2. simpl. apply dict_get_set_eq.
    + subst s2. simpl. unfold file_content. simpl. rewrite Hfile. apply dict_get_set_eq.
    + exists st'. split; [exact Hrun|]. split; [exact Hfd'|]. split; [|split].
      * rewrite Hfile'. simpl. now rewrite !string_app_assoc.
      * rewrite Htr. subst s2. simpl. now rewrite <- !app_assoc.
      * rewrite Hcp. reflexivity.
Qed.

(** The outer loop: after the events of a page, its token is assigned
    under the stream name. *)
Lemma write_pages_run (fhandle : nat) (file_name log_stream_name : string)
    (pages : list (list LogEvent * token)) :
  forall (st : State) (c : string),
  dict_get fhandle (open_files st) = Some (file_name, "") ->
  dict_get file_name (files st) = Some c ->
  exists st',
    for_each pages (fun page =>
      let '(_logs, next_token) := page in
      for_each _logs (fun _log =>
        fwrite fhandle (str _log ++ nl)%string ;; fflush fhandle) ;;
      GlobalManager.set_checkpoint log_stream_name next_token) st = (Return tt, st') /\
    dict_get fhandle (open_files st') = Some (file_name, "") /\
    dict_get file_name (files st') =
      Some (c ++ lines_of str (concat (map fst pages)))%string /\
    trace st' = trace st ++ flat_map (page_events str file_name log_stream_name) pages /\
    LOG_STREAM_CHECKPOINT st' =
      fold_left (fun cp p => dict_set log_stream_name (snd p) cp) pages
        (LOG_STREAM_CHECKPOINT st).
Proof.
  induction pages as [|[logs tok] pages IH]; intros st c Hfd Hfile.
  - exists st. simpl. rewrite string_app_nil_r, app_nil_r. auto.
  - simpl for_each. unfold bind at 1. unfold bind at 1.
    destruct (@write_events_run fhandle file_name logs st c Hfd Hfile) as (s1 & Hrun1 & Hfd1 & Hfile1 & Htr1 & Hcp1).
    rewrite Hrun1. unfold GlobalManager.set_checkpoint, modify.
    match goal with |- context [for_each pages _ ?s] => set (s2 := s) end.
    destruct (IH s2 (c ++ lines_of str logs)%string) as (st' & Hrun & Hfd' & Hfile' & Htr & Hcp).
    + subst s2. simpl. exact Hfd1.
    + subst s2. simpl. exact Hfile1.
    + exists st'. split; [exact Hrun|]. split; [exact Hfd'|]. split; [|split].
      * rewrite Hfile'. simpl. now rewrite lines_of_app, string_app_assoc.
      * rewrite Htr. subst s2. simpl. rewrite Htr1. unfold page_events. simpl.
        now rewrite <- !app_assoc.
      * rewrite Hcp. subst s2. simpl. now rewrite Hcp1.
Qed.

(** The whole worker.  It raises only what the source raises; the data
    goes after what the file held; the calls are those of
    [write_log_events]; the tokens are assigned under the stream name,
    one after the other. *)
Lemma write_log_run (file_name log_group_name log_stream_name : string)
    (pages : list (list LogEvent * token)) (fin : option exn) (st : State) :
  exists st',
    LogStreamHandler.write_log str file_name log_group_name log_stream_name (pages, fin) st
      = (match fin with None => Return tt | Some e => Raise e end, st') /\
    file_content st' file_name =
      (file_content st file_name ++ lines_of str (concat (map fst pages)))%string /\
    trace st' = trace st ++ write_log_events str file_name log_stream_name (pages, fin) /\
    LOG_STREAM_CHECKPOINT st' =
      fold_left (fun cp p => dict_set log_stream_name (snd p) cp) pages
        (LOG_STREAM_CHECKPOINT st).
Proof.
  unfold LogStreamHandler.write_log. simpl fst. simpl snd.
  unfold bind at 1. unfold LogStreamHandler._create_file_if_does_not_exist, modify.
  set (s0 := if dict_mem file_name (files st) then st
             else with_files (dict_set file_name "" (files st)) st).
  assert (Hfile0 : dict_get file_name (files s0) = Some (file_content st file_name)).
  { subst s0. unfold dict_mem, file_content.
    destruct (dict_get file_name (files st)) eqn:Hg; simpl; [exact Hg|].
    apply dict_get_set_eq. }
  assert (Hrest0 : trace s0 = trace st /\
                   LOG_STREAM_CHECKPOINT s0 = LOG_STREAM_CHECKPOINT st).
  { subst s0. destruct (dict_mem file_name (files st)); split; reflexivity. }
  destruct Hrest0 as [Htr0 Hcp0].
  unfold bind at 1. unfold open_append.
  assert (Hmem : dict_mem file_name (files s0) = true)
    by (unfold dict_mem; now rewrite Hfile0).
  rewrite Hmem.
  match goal with |- context [bind (for_each pages _) _ ?s] => set (s1 := s) end.
  destruct (@write_pages_run (next_fd s0) file_name log_stream_name pages s1
              (file_content st file_name))
    as (s2 & Hrun & Hfd2 & Hfile2 & Htr2 & Hcp2).
  { subst s1. simpl. apply dict_get_set_eq. }
  { subst s1. simpl. exact Hfile0. }
  unfold bind at 1. rewrite Hrun.
  assert (Htr21 : trace s2 = trace st ++
                    flat_map (page_events str file_name log_stream_name) pages).
  { rewrite Htr2. subst s1. simpl. now rewrite Htr0. }
  assert (Hcp21 : LOG_STREAM_CHECKPOINT s2 =
                    fold_left (fun cp p => dict_set log_stream_name (snd p) cp) pages
                      (LOG_STREAM_CHECKPOINT st)).
  { rewrite Hcp2. subst s1. simpl. now rewrite Hcp0. }
  unfold write_log_events. simpl fst. simpl snd.
  destruct fin as [e|]; unfold bind, sequence_end, raise, ret.
  - exists s2. split; [reflexivity|]. split; [|split].
    + apply file_content_get. exact Hfile2.
    + now rewrite app_nil_r.
    + exact Hcp21.
  - erewrite fclose_run by exact Hfd2. eexists. split; [reflexivity|]. split; [|split].
    + unfold file_content at 1. simpl. rewrite dict_get_set_eq.
      erewrite file_content_get by exact Hfile2. apply string_app_nil_r.
    + simpl. rewrite Htr21. now rewrite app_assoc.
    + simpl. exact Hcp21.
Qed.

End Worker.

Lemma last_cons {A} (x d : A) (l : list A) : last (x :: l) d = last l x.
Proof.
  revert x d. induction l as [|y l IH]; intros x d; [reflexivity|].
  change (last (x :: y :: l) d) with (last (y :: l) d).
  now rewrite (IH y d), (IH y x).
Qed.

Lemma get_after_tokens (log_stream_name : string) {P : Type}
    (tok : P -> token) (pages : list P) (cp : dict string token) :
  dict_get log_stream_name
    (fold_left (fun cp p => dict_set log_stream_name (tok p) cp) pages cp)
  = last (map (fun p => Some (tok p)) pages) (dict_get log_stream_name cp).
Proof.
  revert cp. induction pages as [|p pages IH]; intros cp; [reflexivity|].
  simpl fold_left. rewrite IH, dict_get_set_eq.
  simpl map. now rewrite last_cons.
Qed.

Lemma get_other_after_tokens (log_stream_name k : string) {P : Type}
    (tok : P -> token) (pages : list P) (cp : dict string token) :
  k <> log_stream_name ->
  dict_get k (fold_left (fun cp p => dict_set log_stream_name (tok p) cp) pages cp)
  = dict_get k cp.
Proof.
  intros Hne. revert cp. induction pages as [|p pages IH]; intros cp; [reflexivity|].
  simpl. rewrite IH. apply dict_get_set_ne. congruence.
Qed.

Lemma keys_after_tokens (log_stream_name : string) {P : Type}
    (tok : P -> token) (pages : list P) (cp : dict string token) :
  In log_stream_name (dict_keys cp) ->
  dict_keys (fold_left (fun cp p => dict_set log_stream_name (tok p) cp) pages cp)
  = dict_keys cp.
Proof.
  revert cp. induction pages as [|p pages IH]; intros cp Hin; [reflexivity|].
  simpl. rewrite IH.
  - now apply dict_keys_set_present.
  - apply dict_In_keys_set. now left.
Qed.

Section WorkerEvents.
Variable LogEvent : Type.
Variable str : LogEvent -> string.
Variables file_name log_stream_name : string.

Lemma checkpoint_writes_app (a b : list event) :
  checkpoint_writes (a ++ b) = checkpoint_writes a ++ checkpoint_writes b.
Proof. apply flat_map_app. Qed.

Lemma checkpoint_writes_page (page : list LogEvent * token) :
  checkpoint_writes (page_events str file_name log_stream_name page)
  = [(log_stream_name, snd page)].
Proof.
  unfold page_events. rewrite checkpoint_writes_app. simpl.
  induction (fst page) as [|r l IH]; [reflexivity | exact IH].
Qed.

Lemma checkpoint_writes_write_log (pages : list (list LogEvent * token)) (fin : option exn) :
  checkpoint_writes (write_log_events str file_name log_stream_name (pages, fin))
  = map (fun p => (log_stream_name, snd p)) pages.
Proof.
  unfold write_log_events. simpl fst. simpl snd. rewrite checkpoint_writes_app.
  assert (Hfin : checkpoint_writes
                   match fin with None => [EvClose file_name] | Some _ => [] end = [])
    by (destruct fin; reflexivity).
  rewrite Hfin, app_nil_r.
  induction pages as [|p pages IH]; [reflexivity|].
  simpl flat_map. rewrite checkpoint_writes_app, checkpoint_writes_page, IH. reflexivity.
Qed.

Lemma file_calls_app (a b : list event) :
  file_calls (a ++ b) = file_calls a ++ file_calls b.
Proof. apply filter_app. Qed.

Lemma file_calls_page (page : list LogEvent * token) :
  file_calls (page_events str file_name log_stream_name page)
  = flat_map (fun r => [EvWrite file_name (str r ++ nl)%string; EvFlush file_name])
      (fst page).
Proof.
  unfold page_events. rewrite file_calls_app. simpl. rewrite app_nil_r.
  induction (fst page) as [|r l IH]; [reflexivity|].
  simpl. now rewrite IH.
Qed.

Lemma file_calls_write_log (pages : list (list LogEvent * token)) (fin : option exn) :
  file_calls (write_log_events str file_name log_stream_name (pages, fin))
  = flat_map (fun r => [EvWrite file_name (str r ++ nl)%string; EvFlush file_name])
      (concat (map fst pages))
    ++ match fin with None => [EvClose file_name] | Some _ => [] end.
Proof.
  unfold write_log_events. simpl fst. simpl snd. rewrite file_calls_app. f_equal.
  - induction pages as [|p pages IH]; [reflexivity|].
    simpl. rewrite file_calls_app, file_calls_page, IH, flat_map_app. reflexivity.
  - destruct fin; reflexivity.
Qed.

End WorkerEvents.

(** C7 (as amended): whatever pages the source yields and however it
    ends, the file of the worker holds afterwards what it held before
    (nothing, if it did not exist) followed by the [str] of every event
    and a line feed each, in the order the events were yielded.  The
    calls on the file are one [write] directly followed by one [flush]
    per event, and [close] when the source is exhausted. *)
Theorem write_log_appends_lines (LogEvent : Type) (str : LogEvent -> string)
    (file_name log_group_name log_stream_name : string)
    (pages : list (list LogEvent * token)) (fin : option exn) (st : State) :
  let st' := exec (LogStreamHandler.write_log str file_name log_group_name log_stream_name
                     (pages, fin)) st in
  file_content st' file_name =
    (file_content st file_name ++ lines_of str (concat (map fst pages)))%string /\
  exists evs,
    trace st' = trace st ++ evs /\
    file_calls evs =
      flat_map (fun r => [EvWrite file_name (str r ++ nl)%string; EvFlush file_name])
        (concat (map fst pages))
      ++ match fin with None => [EvClose file_name] | Some _ => [] end.
Proof.
  cbv zeta. unfold exec.
  destruct (write_log_run str file_name log_group_name log_stream_name pages fin st)
    as (st' & Hrun & Hfile & Htr & _).
  rewrite Hrun. simpl snd. split; [exact Hfile|].
  eexists. split; [exact Htr|]. apply file_calls_write_log.
Qed.

(** C7, refuted as stated: the file holds a line from an earlier run and
    the source yields the one event ["rec1"].  Afterwards the file holds
    the old line followed by ["rec1"] and a line feed, which is not the
    text of the yielded events alone. *)
Lemma write_log_keeps_earlier_content :
  let st := with_files [("s1.log", ("old" ++ nl)%string)] initial_state in
  let st' := exec (LogStreamHandler.write_log (fun s : string => s) "s1.log" "g" "s1"
                     ([(["rec1"], Some "tok1")], None)) st in
  file_content st' "s1.log" = ("old" ++ nl ++ "rec1" ++ nl)%string /\
  lines_of (fun s : string => s) ["rec1"] = ("rec1" ++ nl)%string /\
  file_content st' "s1.log" <> lines_of (fun s : string => s) ["rec1"].
Proof.
  cbv zeta. split; [reflexivity|]. split; [reflexivity|]. discriminate.
Qed.

(** C6: the checkpoint assignments one worker makes are, in order, the
    next tokens of the pages the source yielded, one per page, each after
    the events of its page; the entry under the stream name ends up
    holding the last of them, so after [(["rec1"], "tok1")] and
    [(["rec2"], "tok2")] it holds ["tok2"]. *)
Theorem write_log_checkpoints_in_order (LogEvent : Type) (str : LogEvent -> string)
    (file_name log_group_name log_stream_name : string)
    (pages : list (list LogEvent * token)) (fin : option exn) (st : State) :
  let st' := exec (LogStreamHandler.write_log str file_name log_group_name log_stream_name
                     (pages, fin)) st in
  (exists evs,
     trace st' = trace st ++ evs /\
     evs = write_log_events str file_name log_stream_name (pages, fin) /\
     checkpoint_writes evs = map (fun p => (log_stream_name, snd p)) pages) /\
  dict_get log_stream_name (LOG_STREAM_CHECKPOINT st') =
    last (map (fun p => Some (snd p)) pages)
         (dict_get log_stream_name (LOG_STREAM_CHECKPOINT st)) /\
  (forall (rec1 rec2 : LogEvent) (tok1 tok2 : token) (st0 : State),
     dict_get log_stream_name
       (LOG_STREAM_CHECKPOINT
          (exec (LogStreamHandler.write_log str file_name log_group_name log_stream_name
                   ([([rec1], tok1); ([rec2], tok2)], None)) st0))
     = Some tok2).
Proof.
  cbv zeta. unfold exec. split; [|split].
  - destruct (write_log_run str file_name log_group_name log_stream_name pages fin st)
      as (st' & Hrun & _ & Htr & _).
    rewrite Hrun. simpl snd. eexists. split; [exact Htr|]. split; [reflexivity|].
    apply checkpoint_writes_write_log.
  - destruct (write_log_run str file_name log_group_name log_stream_name pages fin st)
      as (st' & Hrun & _ & _ & Hcp).
    rewrite Hrun. simpl snd. rewrite Hcp. apply get_after_tokens.
  - intros rec1 rec2 tok1 tok2 st0.
    destruct (write_log_run str file_name log_group_name log_stream_name
                [([rec1], tok1); ([rec2], tok2)] None st0)
      as (st' & Hrun & _ & _ & Hcp).
    rewrite Hrun. simpl snd. rewrite Hcp. simpl. apply dict_get_set_eq.
Qed.

(** C2 (as amended): every checkpoint assignment of a worker is made
    under the log stream name alone; the log group name and the file name
    play no part in the checkpoint store.  Entries under other stream
    names are left as they are, and when an entry under the stream name
    already exists (whichever group's worker made it) no second entry is
    created: it is that entry whose value is replaced. *)
Theorem checkpoint_keyed_by_stream_name (LogEvent : Type) (str : LogEvent -> string)
    (file_name log_group_name log_stream_name : string)
    (pages : list (list LogEvent * token)) (fin : option exn) (st : State) :
  let st' := exec (LogStreamHandler.write_log str file_name log_group_name log_stream_name
                     (pages, fin)) st in
  (exists evs,
     trace st' = trace st ++ evs /\
     Forall (fun kt => fst kt = log_stream_name) (checkpoint_writes evs)) /\
  LOG_STREAM_CHECKPOINT st' =
    fold_left (fun cp p => dict_set log_stream_name (snd p) cp) pages
      (LOG_STREAM_CHECKPOINT st) /\
  (forall file_name' log_group_name',
     LOG_STREAM_CHECKPOINT
       (exec (LogStreamHandler.write_log str file_name' log_group_name' log_stream_name
                (pages, fin)) st)
     = LOG_STREAM_CHECKPOINT st') /\
  (forall k, k <> log_stream_name ->
     dict_get k (LOG_STREAM_CHECKPOINT st') = dict_get k (LOG_STREAM_CHECKPOINT st)) /\
  (In log_stream_name (dict_keys (LOG_STREAM_CHECKPOINT st)) ->
   dict_keys (LOG_STREAM_CHECKPOINT st') = dict_keys (LOG_STREAM_CHECKPOINT st)).
Proof.
  cbv zeta. unfold exec.
  destruct (write_log_run str file_name log_group_name log_stream_name pages fin st)
    as (st' & Hrun & _ & Htr & Hcp).
  rewrite Hrun. simpl snd. split; [|split; [exact Hcp|split; [|split]]].
  - eexists. split; [exact Htr|].
    rewrite checkpoint_writes_write_log. apply Forall_forall.
    intros kt Hin. apply in_map_iff in Hin. destruct Hin as (p & <- & _). reflexivity.
  - intros file_name' log_group_name'.
    destruct (write_log_run str file_name' log_group_name' log_stream_name pages fin st)
      as (st'' & Hrun' & _ & _ & Hcp').
    rewrite Hrun'. simpl snd. now rewrite Hcp, Hcp'.
  - intros k Hne. rewrite Hcp. now apply get_other_after_tokens.
  - intros Hin. rewrite Hcp. now apply keys_after_tokens.
Qed.

(** Two workers for the stream name ["s"] in the groups ["g1"] and
    ["g2"], one after the other. *)
Lemma checkpoint_keyed_by_stream_name_witness :
  let st1 := exec (LogStreamHandler.write_log (fun s : string => s) "g1-s.log" "g1" "s"
                     ([(["a"], Some "tok-g1")], None)) initial_state in
  let st2 := exec (LogStreamHandler.write_log (fun s : string => s) "g2-s.log" "g2" "s"
                     ([(["b"], Some "tok-g2")], None)) st1 in
  In "s" (dict_keys (LOG_STREAM_CHECKPOINT st1)) /\
  dict_keys (LOG_STREAM_CHECKPOINT st2) = dict_keys (LOG_STREAM_CHECKPOINT st1) /\
  LOG_STREAM_CHECKPOINT st2 = [("s", Some "tok-g2")].
Proof.
  cbv zeta.
  assert (Hin : In "s" (dict_keys (LOG_STREAM_CHECKPOINT
            (exec (LogStreamHandler.write_log (fun s : string => s) "g1-s.log" "g1" "s"
                     ([(["a"], Some "tok-g1")], None)) initial_state)))).
  { left. reflexivity. }
  split; [exact Hin|].
  destruct (@checkpoint_keyed_by_stream_name string (fun s : string => s)
              "g2-s.log" "g2" "s" [(["b"], Some "tok-g2")] None
              (exec (LogStreamHandler.write_log (fun s : string => s) "g1-s.log" "g1" "s"
                       ([(["a"], Some "tok-g1")], None)) initial_state))
    as (_ & Hcp & _ & _ & Hkeys).
  split; [exact (Hkeys Hin) | exact Hcp].
Defined.

(** C2, refuted as stated: the worker of [("g1", "s")] checkpoints
    ["tok-g1"], then the worker of [("g2", "s")] checkpoints ["tok-g2"].
    The store then holds the single entry ["s"], with the second token:
    the first stream's checkpoint has been overwritten and no entry holds
    it any more. *)
Lemma same_name_streams_share_checkpoint :
  let st1 := exec (LogStreamHandler.write_log (fun s : string => s) "g1-s.log" "g1" "s"
                     ([(["a"], Some "tok-g1")], None)) initial_state in
  let st2 := exec (LogStreamHandler.write_log (fun s : string => s) "g2-s.log" "g2" "s"
                     ([(["b"], Some "tok-g2")], None)) st1 in
  LOG_STREAM_CHECKPOINT st1 = [("s", Some "tok-g1")] /\
  LOG_STREAM_CHECKPOINT st2 = [("s", Some "tok-g2")] /\
  ~ (exists k, dict_get k (LOG_STREAM_CHECKPOINT st2) = Some (Some "tok-g1")).
Proof.
  cbv zeta. split; [reflexivity|]. split; [reflexivity|].
  intros [k Hk].
  change (LOG_STREAM_CHECKPOINT _) with [("s", Some "tok-g2")] in Hk.
  simpl in Hk. destruct (key_eqb k "s"); discriminate.
Qed.

(** ** Persistence: [persist_state] *)

(** Side conditions of the form [In k (dict_keys d)]. *)
Ltac present_key :=
  solve [ assumption
        | apply dict_In_keys_set; now left
        | apply dict_In_keys_update; apply dict_In_keys_set; now left ].

(** Two rounds over the same checkpoint store leave the local dictionary
    as one round with the later clock reading would. *)
Lemma persisted_state_twice (t1 t2 : string) (cp state : dict string token) :
  persisted_state t2 cp (persisted_state t1 cp state) = persisted_state t2 cp state.
Proof.
  unfold persisted_state.
  set (mt := "modified_time").
  assert (Hin : forall (v : token) (d : dict string token),
             In mt (dict_keys (dict_set mt v d)))
    by (intros v d; apply dict_In_keys_set; now left).
  destruct (dict_In_keys_dec mt cp) as [Hcp|Hcp].
  - rewrite dict_update_set_overwritten
      with (d := dict_update cp (dict_set mt (Some t1) state))
      by present_key.
    rewrite dict_update_idem.
    rewrite <- (dict_set_set mt (Some t2) (Some t1) state).
    symmetry. apply dict_update_set_overwritten; present_key.
  - rewrite dict_set_update_comm by present_key.
    now rewrite dict_set_set, dict_update_idem.
Qed.

(** Whatever the clock reading, the local dictionary after a round is one
    fixed dictionary with only the value under ["modified_time"]
    assigned. *)
Lemma persisted_state_shape (cp state : dict string token) :
  exists base,
    In "modified_time" (dict_keys base) /\
    forall now, exists v,
      persisted_state now cp state = dict_set "modified_time" v base /\
      (~ In "modified_time" (dict_keys cp) -> v = Some now).
Proof.
  set (mt := "modified_time").
  assert (Hin : forall (v : token) (d : dict string token),
             In mt (dict_keys (dict_set mt v d)))
    by (intros v d; apply dict_In_keys_set; now left).
  destruct (dict_In_keys_dec mt cp) as [Hcp|Hcp].
  - exists (persisted_state "" cp state). split.
    + unfold persisted_state. present_key.
    + intros now.
      assert (Hk : In mt (dict_keys (persisted_state "" cp state)))
        by (unfold persisted_state; present_key).
      destruct (dict_set_split (V := token) mt _ Hk) as (l1 & v0 & l2 & _ & Hg & _).
      exists v0. split; [|tauto].
      rewrite dict_set_same by exact Hg.
      unfold persisted_state.
      rewrite <- (dict_set_set mt (Some now) (Some "") state).
      now rewrite dict_update_set_overwritten
        with (v := Some now) (d := dict_set mt (Some "") state) by present_key.
  - exists (dict_update cp (dict_set mt None state)). split.
    + present_key.
    + intros now. exists (Some now). split; [|reflexivity].
      unfold persisted_state.
      rewrite dict_set_update_comm by present_key. now rewrite dict_set_set.
Qed.

Section JsonFacts.
Variable encode_basestring_ascii : string -> string.

Lemma concat_cons (sep x : string) (l : list string) :
  String.concat sep (x :: l) =
  (x ++ match l with [] => "" | _ => sep ++ String.concat sep l end)%string.
Proof. destruct l; simpl; [now rewrite string_app_nil_r | reflexivity]. Qed.

(** One element of a joined list sits between a prefix and a suffix that
    do not depend on it. *)
Lemma concat_middle (sep : string) (a b : list string) :
  exists p q, forall x, String.concat sep (a ++ x :: b) = (p ++ x ++ q)%string.
Proof.
  induction a as [|y a (p & q & IH)].
  - exists "", (match b with [] => "" | _ => sep ++ String.concat sep b end)%string.
    intros x. simpl app. now rewrite concat_cons.
  - exists (y ++ sep ++ p)%string, q. intros x.
    change ((y :: a) ++ x :: b) with (y :: (a ++ x :: b)).
    rewrite concat_cons, IH.
    destruct (a ++ x :: b) eqn:Hl; [destruct a; discriminate|].
    now rewrite !string_app_assoc.
Qed.

(** In the serialized object, the value of one field sits between a
    prefix and a suffix that do not depend on it. *)
Lemma json_dumps_field (l1 l2 : dict string token) (k : string) :
  exists pre suf, forall v,
    json_dumps encode_basestring_ascii (l1 ++ (k, v) :: l2)
    = (pre ++ json_value encode_basestring_ascii v ++ suf)%string.
Proof.
  destruct (concat_middle ", " (map (json_item encode_basestring_ascii) l1)
              (map (json_item encode_basestring_ascii) l2)) as (p & q & Hpq).
  exists ("{" ++ p ++ encode_basestring_ascii k ++ ": ")%string, (q ++ "}")%string.
  intros v. unfold json_dumps. rewrite map_app. simpl map. rewrite Hpq.
  unfold json_item at 1. simpl fst. simpl snd.
  now rewrite !string_app_assoc.
Qed.

(** One round: it returns the updated local dictionary, leaves the
    checkpoint store alone and leaves the file holding the serialized
    dictionary. *)
Lemma persist_state_round_run (location now : string) (state : dict string token)
    (st : State) :
  exists st',
    LogStreamHandler.persist_state_round encode_basestring_ascii location now state st
      = (Return (persisted_state now (LOG_STREAM_CHECKPOINT st) state), st') /\
    file_content st' location =
      json_dumps encode_basestring_ascii
        (persisted_state now (LOG_STREAM_CHECKPOINT st) state) /\
    LOG_STREAM_CHECKPOINT st' = LOG_STREAM_CHECKPOINT st.
Proof.
  unfold LogStreamHandler.persist_state_round.
  unfold GlobalManager.get_checkpoint, ref_items.
  unfold bind at 1. unfold ret at 1. unfold bind at 1. unfold deref.
  fold (persisted_state now (LOG_STREAM_CHECKPOINT st) state).
  remember (json_dumps _ _) as json eqn:Hjson. clear Hjson.
  unfold bind at 1. unfold LogStreamHandler._create_file_if_does_not_exist, modify.
  set (s0 := if dict_mem location (files st) then st else _).
  assert (Hcp0 : LOG_STREAM_CHECKPOINT s0 = LOG_STREAM_CHECKPOINT st)
    by (subst s0; destruct (dict_mem location (files st)); reflexivity).
  unfold bind at 1. unfold open_write.
  match goal with |- context [bind (fwrite _ _) _ ?s] => set (s1 := s) end.
  assert (Hfd1 : dict_get (next_fd s0) (open_files s1) = Some (location, ""))
    by (subst s1; simpl; apply dict_get_set_eq).
  unfold bind at 1. erewrite fwrite_run by exact Hfd1.
  unfold bind at 1. erewrite fflush_run by (simpl; apply dict_get_set_eq).
  unfold bind at 1. erewrite fclose_run by (simpl; apply dict_get_set_eq).
  unfold ret. eexists. split; [reflexivity|]. split.
  - unfold file_content at 1. simpl. rewrite dict_get_set_eq.
    unfold file_content at 1. simpl. rewrite dict_get_set_eq.
    unfold file_content at 1. simpl. rewrite dict_get_set_eq.
    simpl. apply string_app_nil_r.
  - simpl. exact Hcp0.
Qed.

End JsonFacts.

(** C9: two consecutive rounds of [persist_state] that find the same
    checkpoint store both complete, and the two files they write are the
    same bytes before and after the serialized value of the
    ["modified_time"] field; that value is the clock reading of the round
    (unless a stream is itself named ["modified_time"], in which case its
    token takes the field in both files). *)
Theorem persist_state_idempotent (encode_basestring_ascii : string -> string)
    (location t1 t2 : string) (state0 : dict string token) (st st_mid : State) :
  LOG_STREAM_CHECKPOINT st_mid = LOG_STREAM_CHECKPOINT st ->
  exists state1 st1 state2 st2,
    LogStreamHandler.persist_state_round encode_basestring_ascii location t1 state0 st
      = (Return state1, st1) /\
    LogStreamHandler.persist_state_round encode_basestring_ascii location t2 state1 st_mid
      = (Return state2, st2) /\
    exists pre suf v1 v2,
      dict_get "modified_time" state1 = Some v1 /\
      dict_get "modified_time" state2 = Some v2 /\
      file_content st1 location
        = (pre ++ json_value encode_basestring_ascii v1 ++ suf)%string /\
      file_content st2 location
        = (pre ++ json_value encode_basestring_ascii v2 ++ suf)%string /\
      (~ In "modified_time" (dict_keys (LOG_STREAM_CHECKPOINT st)) ->
       v1 = Some t1 /\ v2 = Some t2).
Proof.
  intros Hsame.
  destruct (persist_state_round_run encode_basestring_ascii location t1 state0 st)
    as (st1 & Hrun1 & Hfile1 & _).
  destruct (persist_state_round_run encode_basestring_ascii location t2
              (persisted_state t1 (LOG_STREAM_CHECKPOINT st) state0) st_mid)
    as (st2 & Hrun2 & Hfile2 & _).
  rewrite Hsame, persisted_state_twice in Hrun2, Hfile2.
  do 4 eexists. split; [exact Hrun1|]. split; [exact Hrun2|].
  destruct (persisted_state_shape (LOG_STREAM_CHECKPOINT st) state0) as (base & Hbase & Hshape).
  destruct (Hshape t1) as (v1 & Hs1 & Hv1). destruct (Hshape t2) as (v2 & Hs2 & Hv2).
  destruct (dict_set_split (V := token) "modified_time" base Hbase)
    as (l1 & v0 & l2 & _ & _ & Hset).
  destruct (json_dumps_field encode_basestring_ascii l1 l2 "modified_time")
    as (pre & suf & Hjson).
  exists pre, suf, v1, v2.
  rewrite Hfile1, Hfile2, Hs1, Hs2, !dict_get_set_eq, !Hset, !Hjson.
  repeat split; auto.
Qed.

(** Two rounds over the store [{"s1": "tok1"}], read at ["Mon"] and at
    ["Tue"]. *)
Lemma persist_state_idempotent_witness :
  let st := with_LOG_STREAM_CHECKPOINT [("s1", Some "tok1")] initial_state in
  let r1 := LogStreamHandler.persist_state_round py_encode_basestring_ascii
              "cwl.state" "Mon" [] st in
  LOG_STREAM_CHECKPOINT (snd r1) = LOG_STREAM_CHECKPOINT st /\
  exists state1 st1 state2 st2 pre suf,
    r1 = (Return state1, st1) /\
    LogStreamHandler.persist_state_round py_encode_basestring_ascii
      "cwl.state" "Tue" state1 (snd r1) = (Return state2, st2) /\
    file_content st1 "cwl.state" = (pre ++ py_encode_basestring_ascii "Mon" ++ suf)%string /\
    file_content st2 "cwl.state" = (pre ++ py_encode_basestring_ascii "Tue" ++ suf)%string.
Proof.
  cbv zeta. split; [reflexivity|].
  destruct (@persist_state_idempotent py_encode_basestring_ascii "cwl.state" "Mon" "Tue" []
              (with_LOG_STREAM_CHECKPOINT [("s1", Some "tok1")] initial_state)
              (snd (LogStreamHandler.persist_state_round py_encode_basestring_ascii
                      "cwl.state" "Mon" []
                      (with_LOG_STREAM_CHECKPOINT [("s1", Some "tok1")] initial_state)))
              eq_refl)
    as (state1 & st1 & state2 & st2 & Hr1 & Hr2 & pre & suf & v1 & v2
        & _ & _ & Hf1 & Hf2 & Hts).
  destruct Hts as [-> ->].
  { simpl. intros [H|[]]. discriminate. }
  exists state1, st1, state2, st2, pre, suf. repeat split; assumption.
Defined.

(** ** Dispatch: [sync_new_logs] *)

Lemma dict_get_of_In {K V} {E : PyKey K} {Ok : PyKeyOk K} (d : dict K V) (k : K) (v : V) :
  NoDup (dict_keys d) -> In (k, v) d -> dict_get k d = Some v.
Proof.
  induction d as [|[k0 v0] r IH]; simpl; [tauto|].
  intros Hnd [Heq|Hin].
  - inversion Heq; subst. now rewrite key_eqb_refl.
  - inversion Hnd as [|? ? Hnotin Hnd']; subst.
    destruct (key_eqb k k0) eqn:Ek.
    + apply key_eqb_eq in Ek. subst k0. exfalso. apply Hnotin.
      change k with (fst (k, v)). now apply in_map.
    + now apply IH.
Qed.

Lemma dict_get_In_item {K V} {E : PyKey K} {Ok : PyKeyOk K} (d : dict K V) (k : K) (v : V) :
  dict_get k d = Some v -> In (k, v) d.
Proof.
  induction d as [|[k0 v0] r IH]; simpl; [discriminate|].
  destruct (key_eqb k k0) eqn:Ek.
  - apply key_eqb_eq in Ek. intros [= ->]. left. congruence.
  - intros Hg. right. now apply IH.
Qed.

Lemma In_unclaimed (m : dict tuple (option thread)) (k : tuple) :
  In k (unclaimed m) <-> In (k, None) m.
Proof.
  unfold unclaimed. rewrite in_map_iff. split.
  - intros ([k' v] & Hk & Hin). simpl in Hk. subst k'.
    apply filter_In in Hin. destruct Hin as [Hin Hv]. simpl in Hv.
    destruct v; [discriminate | assumption].
  - intros Hin. exists (k, None). split; [reflexivity|].
    apply filter_In. auto.
Qed.

Lemma unclaimed_keys (m : dict tuple (option thread)) (k : tuple) :
  In k (unclaimed m) -> In k (dict_keys m).
Proof.
  rewrite In_unclaimed. intros Hin. change k with (fst (k, @None thread)).
  now apply in_map.
Qed.

Lemma NoDup_unclaimed (m : dict tuple (option thread)) :
  NoDup (dict_keys m) -> NoDup (unclaimed m).
Proof.
  unfold unclaimed, dict_keys.
  induction m as [|[k v] m IH]; simpl; [constructor|].
  intros Hnd. inversion Hnd as [|? ? Hnotin Hnd']; subst.
  destruct v; simpl; [now apply IH|].
  constructor; [|now apply IH].
  intros Hin. apply Hnotin. apply in_map_iff in Hin.
  destruct Hin as (kv & Hk & Hin). apply filter_In in Hin.
  rewrite <- Hk. apply in_map. tauto.
Qed.

Lemma keys_claim_all (ks : list tuple) (n : nat) (m : dict tuple (option thread)) :
  (forall k, In k ks -> In k (dict_keys m)) ->
  dict_keys (claim_all ks n m) = dict_keys m.
Proof.
  revert n m. induction ks as [|k ks IH]; intros n m Hin; [reflexivity|].
  simpl. rewrite IH.
  - apply dict_keys_set_present. apply Hin. now left.
  - intros k' Hk'. apply dict_In_keys_set. right. apply Hin. now right.
Qed.

Lemma get_claim_all_other (ks : list tuple) (n : nat) (m : dict tuple (option thread))
    (k : tuple) :
  ~ In k ks -> dict_get k (claim_all ks n m) = dict_get k m.
Proof.
  revert n m. induction ks as [|k0 ks IH]; intros n m Hn; [reflexivity|].
  simpl. rewrite IH by (simpl in Hn; tauto).
  apply dict_get_set_ne. simpl in Hn. intros ->. tauto.
Qed.

Lemma get_claim_all_claimed (ks : list tuple) (n : nat) (m : dict tuple (option thread))
    (k : tuple) :
  In k ks -> exists t, n <= t /\ dict_get k (claim_all ks n m) = Some (Some t).
Proof.
  revert n m. induction ks as [|k0 ks IH]; intros n m Hin; [destruct Hin|].
  simpl. destruct (in_dec (list_eq_dec string_dec) k ks) as [Hks|Hks].
  - destruct (IH (S n) (dict_set k0 (Some n) m) Hks) as (t & Ht & Hg).
    exists t. split; [lia | exact Hg].
  - destruct Hin as [->|Hin]; [|tauto].
    exists n. split; [lia|]. rewrite get_claim_all_other by assumption.
    apply dict_get_set_eq.
Qed.

(** Once every entry that had no thread has been given one, no entry is
    left without. *)
Lemma unclaimed_claim_all (n : nat) (m : dict tuple (option thread)) :
  NoDup (dict_keys m) -> unclaimed (claim_all (unclaimed m) n m) = [].
Proof.
  intros Hnd.
  destruct (unclaimed (claim_all (unclaimed m) n m)) as [|k rest] eqn:Hu; [reflexivity|].
  exfalso.
  assert (Hk : In k (unclaimed (claim_all (unclaimed m) n m)))
    by (rewrite Hu; now left).
  apply In_unclaimed in Hk.
  apply dict_get_of_In in Hk;
    [|rewrite keys_claim_all; [assumption | apply unclaimed_keys]].
  destruct (in_dec (list_eq_dec string_dec) k (unclaimed m)) as [Hin|Hout].
  - destruct (get_claim_all_claimed (unclaimed m) n m k Hin) as (t & _ & Hg). congruence.
  - rewrite get_claim_all_other in Hk by assumption.
    apply Hout. apply In_unclaimed. now apply dict_get_In_item.
Qed.

Section Dispatch.
Variable AWS_LOGS_DIRECTORY : string.
Variable slugify : string -> string.

Local Notation "'dispatch'" :=
  (LogStreamHandler.sync_new_logs_round AWS_LOGS_DIRECTORY slugify).

(** The loop of [sync_new_logs] over a list of identities: one thread is
    started per element, in order, and the element's entry is assigned
    that thread. *)
Lemma dispatch_loop_run (ks : list tuple) :
  Forall (fun k : tuple => length k = 2) ks ->
  forall st, exists st' new,
    for_each ks (fun key =>
      match key with
      | [log_group_name; log_stream_name] =>
          let file_name :=
            LogStreamHandler._get_file_name AWS_LOGS_DIRECTORY slugify
              log_group_name log_stream_name in
          log_getter <- LogStreamHandler.start_thread
                          (mkThread file_name log_group_name log_stream_name) ;;
          GlobalManager.set_log_stream_map [log_group_name; log_stream_name]
            (Some log_getter)
      | _ => raise ValueError
      end) st = (Return tt, st') /\
    threads st' = threads st ++ new /\
    map thread_key new = ks /\
    LOG_STREAM_MAP st' = claim_all ks (length (threads st)) (LOG_STREAM_MAP st).
Proof.
  induction 1 as [|k ks Hk Hks IH]; intros st.
  - exists st, []. simpl. rewrite app_nil_r. auto.
  - destruct k as [|g [|s [|x k]]]; try discriminate.
    simpl for_each. unfold bind at 1. unfold bind at 1.
    unfold LogStreamHandler.start_thread, GlobalManager.set_log_stream_map, modify.
    match goal with |- context [for_each ks _ ?s] => set (s1 := s) end.
    destruct (IH s1) as (st' & new & Hrun & Hth & Hkeys & Hmap).
    exists st', (mkThread (LogStreamHandler._get_file_name AWS_LOGS_DIRECTORY slugify g s)
                   g s :: new).
    split; [exact Hrun|]. split; [|split].
    + rewrite Hth. subst s1. simpl. now rewrite <- app_assoc.
    + simpl. now rewrite Hkeys.
    + rewrite Hmap. subst s1. simpl. rewrite length_app, Nat.add_1_r. reflexivity.
Qed.

(** A round of [sync_new_logs] on a catalog keyed by identities, one
    entry per identity: it starts exactly one thread for each entry that
    has none, leaves no entry without a thread, and leaves the entries
    that had one as they were. *)
Lemma dispatch_claims_each_once (st : State) :
  identity_keys st -> NoDup (dict_keys (LOG_STREAM_MAP st)) ->
  exists st' new,
    dispatch st = (Return tt, st') /\
    threads st' = threads st ++ new /\
    map thread_key new = unclaimed (LOG_STREAM_MAP st) /\
    NoDup (map thread_key new) /\
    unclaimed (LOG_STREAM_MAP st') = [] /\
    dict_keys (LOG_STREAM_MAP st') = dict_keys (LOG_STREAM_MAP st) /\
    (forall k t, dict_get k (LOG_STREAM_MAP st) = Some (Some t) ->
                 dict_get k (LOG_STREAM_MAP st') = Some (Some t)).
Proof.
  intros Hid Hnd.
  unfold LogStreamHandler.sync_new_logs_round, LogStreamHandler._get_new_log_streams.
  unfold GlobalManager.get_log_stream_map, ref_items.
  unfold bind at 1. unfold bind at 1. unfold ret at 1. unfold bind at 1. unfold ret at 1.
  unfold deref. fold (unclaimed (LOG_STREAM_MAP st)).
  destruct (@dispatch_loop_run (unclaimed (LOG_STREAM_MAP st))) with (st := st)
    as (st' & new & Hrun & Hth & Hkeys & Hmap).
  { apply Forall_forall. intros k Hk. apply unclaimed_keys in Hk.
    unfold identity_keys in Hid. rewrite Forall_forall in Hid. now apply Hid. }
  exists st', new. split; [exact Hrun|]. split; [exact Hth|]. split; [exact Hkeys|].
  rewrite Hkeys, Hmap. split; [now apply NoDup_unclaimed|].
  split; [now apply unclaimed_claim_all|].
  split; [apply keys_claim_all, unclaimed_keys|].
  intros k t Hg. rewrite get_claim_all_other; [exact Hg|].
  intros Hin. apply In_unclaimed in Hin. apply dict_get_of_In in Hin; [|assumption].
  congruence.
Qed.

End Dispatch.

(** ** Discovery and dispatch together *)

(** The catalog stays keyed by identities, one entry per identity, along
    every schedule of discovery and dispatch rounds. *)
Lemma run_ticks_catalog_shape (LOG_GROUP_NAME AWS_LOGS_DIRECTORY : string)
    (LOG_STREAMS_FILTER : option (list string)) (slugify : string -> string)
    (ts : list tick) (st : State) :
  identity_keys st /\ NoDup (dict_keys (LOG_STREAM_MAP st)) ->
  let st' := exec (run_ticks LOG_GROUP_NAME AWS_LOGS_DIRECTORY LOG_STREAMS_FILTER slugify ts)
               st in
  identity_keys st' /\ NoDup (dict_keys (LOG_STREAM_MAP st')).
Proof.
  cbv zeta. unfold run_ticks, exec.
  revert st. induction ts as [|t ts IH]; intros st [Hid Hnd]; [simpl; auto|].
  simpl for_each. unfold bind.
  assert (Hstep : identity_keys (snd (run_tick LOG_GROUP_NAME AWS_LOGS_DIRECTORY
                                        LOG_STREAMS_FILTER slugify t st)) /\
                  NoDup (dict_keys (LOG_STREAM_MAP
                    (snd (run_tick LOG_GROUP_NAME AWS_LOGS_DIRECTORY
                            LOG_STREAMS_FILTER slugify t st))))).
  { destruct t as [log_streams|]; simpl run_tick.
    - apply (@discover_keeps_catalog_shape LOG_GROUP_NAME LOG_STREAMS_FILTER log_streams
               st Hid Hnd).
    - destruct (@dispatch_claims_each_once AWS_LOGS_DIRECTORY slugify st Hid Hnd)
        as (st' & new & Hrun & _ & _ & _ & _ & Hkeys & _).
      rewrite Hrun. simpl snd. unfold identity_keys. rewrite Hkeys. auto. }
  destruct (run_tick _ _ _ _ t st) as [[[]|e] s1]; simpl snd in *.
  - now apply IH.
  - exact Hstep.
Qed.

(** A discovery round assigns [None] to the entry of every wanted stream
    it lists, whatever the entry held. *)
Lemma discover_resets_entry (LOG_GROUP_NAME : string)
    (LOG_STREAMS_FILTER : option (list string))
    (ds : list log_stream) (fin : option exn) (st : State) (name : string) :
  identity_keys st ->
  In name (map logStreamName ds) ->
  LogStreamHandler._wanted_log_stream LOG_STREAMS_FILTER name = true ->
  dict_get [LOG_GROUP_NAME; name]
    (LOG_STREAM_MAP (exec (LogStreamHandler._discover_log_streams
                             LOG_GROUP_NAME LOG_STREAMS_FILTER (ds, fin)) st))
  = Some None.
Proof.
  intros Hid Hin Hw.
  rewrite discover_catalog
    by (rewrite (identity_keys_no_group_entry LOG_GROUP_NAME Hid); reflexivity).
  simpl LOG_STREAM_MAP. apply get_register_all. left. apply filter_In. auto.
Qed.

(** Hence a stream that already has its thread gets another one at the
    first dispatch round after a discovery round lists it again. *)
Lemma rediscovery_starts_another_thread (LOG_GROUP_NAME AWS_LOGS_DIRECTORY : string)
    (LOG_STREAMS_FILTER : option (list string)) (slugify : string -> string)
    (ds : list log_stream) (fin : option exn) (st : State) (name : string) (t : thread) :
  identity_keys st -> NoDup (dict_keys (LOG_STREAM_MAP st)) ->
  dict_get [LOG_GROUP_NAME; name] (LOG_STREAM_MAP st) = Some (Some t) ->
  In name (map logStreamName ds) ->
  LogStreamHandler._wanted_log_stream LOG_STREAMS_FILTER name = true ->
  exists st' new,
    LogStreamHandler.sync_new_logs_round AWS_LOGS_DIRECTORY slugify
      (exec (LogStreamHandler._discover_log_streams
               LOG_GROUP_NAME LOG_STREAMS_FILTER (ds, fin)) st)
    = (Return tt, st') /\
    threads st' = threads st ++ new /\
    In [LOG_GROUP_NAME; name] (map thread_key new).
Proof.
  intros Hid Hnd Hclaimed Hin Hw.
  pose proof (@discover_resets_entry LOG_GROUP_NAME LOG_STREAMS_FILTER ds fin st name
                Hid Hin Hw) as Hreset.
  destruct (@discover_keeps_catalog_shape LOG_GROUP_NAME LOG_STREAMS_FILTER (ds, fin) st
              Hid Hnd) as [Hid1 Hnd1].
  set (st1 := exec _ st) in *.
  destruct (@dispatch_claims_each_once AWS_LOGS_DIRECTORY slugify st1 Hid1 Hnd1)
    as (st' & new & Hrun & Hth & Hkeys & _).
  exists st', new. split; [exact Hrun|]. split.
  - rewrite Hth. f_equal. subst st1.
    rewrite discover_catalog
      by (rewrite (identity_keys_no_group_entry LOG_GROUP_NAME Hid); reflexivity).
    reflexivity.
  - rewrite Hkeys. apply In_unclaimed. now apply dict_get_In_item.
Qed.

(** C5 (fails on the code): starting from the empty catalog, a discovery
    round lists ["s1"] and a dispatch round gives its entry thread 0.  The
    next discovery round that lists ["s1"] assigns [None] to that entry:
    registering an identity that is present and has its thread does
    change the entry's value.  The catalog still has the one entry. *)
Theorem discovery_overwrites_claimed_entry (AWS_LOGS_DIRECTORY : string)
    (slugify : string -> string) :
  let log_streams : listing := ([mkLogStream "s1"], None) in
  let st := exec (run_ticks "g" AWS_LOGS_DIRECTORY None slugify
                    [Discover log_streams; Dispatch]) initial_state in
  let st' := exec (LogStreamHandler._discover_log_streams "g" None log_streams) st in
  LOG_STREAM_MAP st = [(["g"; "s1"], Some 0)] /\
  LOG_STREAM_MAP st' = [(["g"; "s1"], None)].
Proof. split; reflexivity. Qed.

(** C1 (fails on the code): discovery lists ["s1"], dispatch starts its
    worker, discovery lists ["s1"] again, dispatch runs again.  Two
    threads have then been started for the identity [("g", "s1")], on the
    same file. *)
Theorem second_worker_for_same_identity (AWS_LOGS_DIRECTORY : string)
    (slugify : string -> string) :
  let log_streams : listing := ([mkLogStream "s1"], None) in
  let st := exec (run_ticks "g" AWS_LOGS_DIRECTORY None slugify
                    [Discover log_streams; Dispatch; Discover log_streams; Dispatch])
                 initial_state in
  map thread_identity (threads st) = [("g", "s1"); ("g", "s1")] /\
  map th_file_name (threads st) =
    [LogStreamHandler._get_file_name AWS_LOGS_DIRECTORY slugify "g" "s1";
     LogStreamHandler._get_file_name AWS_LOGS_DIRECTORY slugify "g" "s1"] /\
  LOG_STREAM_MAP st = [(["g"; "s1"], Some 1)].
Proof. repeat split; reflexivity. Qed.

(* ================================================================== *)
(** * Part III: further properties of the code *)

(** ** [MixpanelConsumer.process] *)

Section ProcessFacts.
Variable json_loads : string -> option pyval.
Variable CWL_ENV : string.
Variable mp_track : track_call -> option py_exception.

Local Notation "'process_body'" := (MixpanelConsumer.process_body json_loads CWL_ENV).
Local Notation "'process'" := (MixpanelConsumer.process json_loads CWL_ENV mp_track).

(** When the body of [process] decides on a call, the log line carries a
    request and the call is the one for that request. *)
Lemma process_body_call (log_line : pyval) (call : track_call) :
  process_body log_line = Ok (Some call) <->
  exists inner,
    carries_request json_loads log_line inner /\
    MixpanelConsumer.should_report (field inner "templatized_url") (field inner "app_id")
      = true /\
    call = request_call CWL_ENV inner.
Proof.
  unfold MixpanelConsumer.process_body, carries_request, request_call, field. split.
  - destruct log_line as [| | | |l|items]; simpl; try discriminate.
    destruct (items_get "message" items) as [m1|] eqn:Hm1; simpl; [|discriminate].
    destruct m1 as [| | |s1| |]; simpl; try discriminate.
    destruct (json_loads s1) as [o|] eqn:Hl1; simpl; [|discriminate].
    destruct o as [| | | | |outer]; simpl; try discriminate.
    destruct (items_get "message" outer) as [m2|] eqn:Hm2; simpl; [|discriminate].
    destruct m2 as [| | |s2|l2|d2]; simpl; try discriminate.
    + destruct (str_contains "templatized_url" s2) eqn:Hc; simpl; [|discriminate].
      destruct (json_loads s2) as [i|] eqn:Hl2; simpl; [|discriminate].
      destruct i as [| | | | |inner]; simpl; try discriminate.
      destruct (py_eq_str _ "/"); [discriminate|].
      destruct (MixpanelConsumer.should_report _ _) eqn:Hr; [|discriminate].
      intros [= <-]. exists inner. split; [|split; [exact Hr | reflexivity]].
      exists items, s1, outer, s2. repeat split; assumption.
    + destruct (existsb _ l2); discriminate.
    + destruct (items_get "templatized_url" d2); discriminate.
  - intros (inner & (items & s1 & outer & s2 & -> & Hm1 & Hl1 & Hm2 & Hc & Hl2) & Hr & ->).
    simpl. rewrite Hm1. simpl. rewrite Hl1. simpl. rewrite Hm2. simpl. rewrite Hc. simpl.
    rewrite Hl2. simpl.
    assert (Hslash : py_eq_str
              match items_get "templatized_url" inner with Some x => x | None => PyNone end
              "/" = false).
    { unfold MixpanelConsumer.should_report in Hr.
      destruct (truthy _); [|discriminate]. simpl in Hr.
      destruct (py_eq_str _ "/"); [discriminate | reflexivity]. }
    rewrite Hslash, Hr. reflexivity.
Qed.

End ProcessFacts.

(** X1: [process] calls the Mixpanel client at most once per log line,
    and it makes the call exactly when the line carries a request whose
    decoded [templatized_url] and [app_id] pass [should_report]; the call
    is then [track(app_id, 'API Request', payload)] with the four payload
    fields read from the decoded request and [CWL_ENV]. *)
Theorem process_tracks_iff (json_loads : string -> option pyval) (CWL_ENV : string)
    (mp_track : track_call -> option py_exception)
    (log_line : pyval) (log_group log_stream : string) :
  let done := MixpanelConsumer.process json_loads CWL_ENV mp_track
                log_line log_group log_stream in
  length (tracked done) <= 1 /\
  forall call,
    In call (tracked done) <->
    exists inner,
      carries_request json_loads log_line inner /\
      MixpanelConsumer.should_report (field inner "templatized_url") (field inner "app_id")
        = true /\
      call = request_call CWL_ENV inner.
Proof.
  cbv zeta. unfold MixpanelConsumer.process. split.
  - destruct (MixpanelConsumer.process_body _ _ _) as [[c|]|e]; simpl; auto.
    destruct (mp_track c); simpl; auto.
  - intros call. rewrite <- process_body_call.
    destruct (MixpanelConsumer.process_body _ _ _) as [[c|]|e]; simpl.
    + destruct (mp_track c); simpl; split.
      * intros [->|[]]. reflexivity.
      * intros [= ->]. now left.
      * intros [->|[]]. reflexivity.
      * intros [= ->]. now left.
    + split; [tauto | discriminate].
    + split; [tauto | discriminate].
Qed.

(** X2: what [process] reports is never the root URL and never without
    an application: every call it makes has a truthy [url] other than
    ["/"] and a truthy [app_id], which is also the call's [distinct_id]. *)
Theorem process_never_tracks_root_or_anonymous (json_loads : string -> option pyval)
    (CWL_ENV : string) (mp_track : track_call -> option py_exception)
    (log_line : pyval) (log_group log_stream : string) (call : track_call) :
  In call (tracked (MixpanelConsumer.process json_loads CWL_ENV mp_track
                      log_line log_group log_stream)) ->
  exists url app_id,
    items_get "url" (properties call) = Some url /\
    items_get "app_id" (properties call) = Some app_id /\
    distinct_id call = app_id /\
    event_name call = "API Request" /\
    items_get "env" (properties call) = Some (PyStr CWL_ENV) /\
    truthy url = true /\ url <> PyStr "/" /\ truthy app_id = true.
Proof.
  unfold MixpanelConsumer.process.
  destruct (MixpanelConsumer.process_body json_loads CWL_ENV log_line)
    as [[c|]|e] eqn:Hbody; [|intros []|intros []].
  intros Hin.
  assert (Hc : call = c) by (destruct (mp_track c); destruct Hin as [<-|[]]; reflexivity).
  subst c. apply process_body_call in Hbody. destruct Hbody as (inner & _ & Hr & ->).
  exists (field inner "templatized_url"), (field inner "app_id").
  unfold MixpanelConsumer.should_report in Hr.
  destruct (truthy (field inner "templatized_url")) eqn:Hu; [|discriminate].
  destruct (py_eq_str (field inner "templatized_url") "/") eqn:Hs; [discriminate|].
  destruct (truthy (field inner "app_id")) eqn:Ha; [|discriminate].
  apply py_eq_str_false in Hs.
  repeat split; assumption.
Qed.

Lemma process_never_tracks_root_or_anonymous_witness :
  In (request_call "prod" [("templatized_url", PyStr "/v1/apps/:id");
                           ("request_url", PyStr "/v1/apps/7");
                           ("app_id", PyStr "app-7")])
     (tracked (MixpanelConsumer.process example_json_loads "prod" (fun _ => None)
                 example_log_line "g" "s1")) /\
  exists url app_id,
    items_get "url"
      (properties (request_call "prod" [("templatized_url", PyStr "/v1/apps/:id");
                                        ("request_url", PyStr "/v1/apps/7");
                                        ("app_id", PyStr "app-7")])) = Some url /\
    truthy url = true /\ url <> PyStr "/" /\ truthy app_id = true.
Proof.
  assert (Hin : In (request_call "prod" [("templatized_url", PyStr "/v1/apps/:id");
                                         ("request_url", PyStr "/v1/apps/7");
                                         ("app_id", PyStr "app-7")])
                   (tracked (MixpanelConsumer.process example_json_loads "prod"
                               (fun _ => None) example_log_line "g" "s1"))).
  { left. reflexivity. }
  split; [exact Hin|].
  destruct (@process_never_tracks_root_or_anonymous example_json_loads "prod"
              (fun _ => None) example_log_line "g" "s1" _ Hin)
    as (url & app_id & Hu & _ & _ & _ & _ & Ht & Hs & Ha).
  exists url, app_id. repeat split; assumption.
Defined.

(** ** Rounds of [sync_new_logs] and [discover_logs] along a schedule *)

Lemma get_register_all_thread (group : string) (names : list string)
    (m : dict tuple (option thread)) (k : tuple) (t : thread) :
  dict_get k (register_all group names m) = Some (Some t) ->
  dict_get k m = Some (Some t).
Proof.
  revert m. induction names as [|a names IH]; intros m; simpl; [auto|].
  intros Hg. apply IH in Hg.
  destruct (list_eq_dec string_dec [group; a] k) as [<-|Hne].
  - rewrite dict_get_set_eq in Hg. discriminate.
  - now rewrite dict_get_set_ne in Hg.
Qed.

(** Where a thread object in the catalog comes from after the entries
    [ks] were given the threads numbered from [n]: it was there before,
    or it is the thread of the entry's position in [ks]. *)
Lemma get_claim_all_thread (ks : list tuple) (n : nat) (m : dict tuple (option thread))
    (k : tuple) (t : thread) :
  dict_get k (claim_all ks n m) = Some (Some t) ->
  dict_get k m = Some (Some t) \/ (n <= t /\ nth_error ks (t - n) = Some k).
Proof.
  revert n m. induction ks as [|k0 ks IH]; intros n m; simpl; [auto|].
  intros Hg. apply IH in Hg. destruct Hg as [Hg|[Hle Hnth]].
  - destruct (list_eq_dec string_dec k0 k) as [<-|Hne].
    + rewrite dict_get_set_eq in Hg. injection Hg as <-.
      right. split; [lia|]. now rewrite Nat.sub_diag.
    + left. now rewrite dict_get_set_ne in Hg.
  - right. split; [lia|].
    replace (t - n) with (S (t - S n)) by lia. exact Hnth.
Qed.

(** A round of [sync_new_logs] at the level of the catalog: the entries
    without a thread, in catalog order, get the threads it starts. *)
Lemma dispatch_round_run (AWS_LOGS_DIRECTORY : string) (slugify : string -> string)
    (st : State) :
  identity_keys st ->
  exists st' new,
    LogStreamHandler.sync_new_logs_round AWS_LOGS_DIRECTORY slugify st = (Return tt, st') /\
    threads st' = threads st ++ new /\
    map thread_key new = unclaimed (LOG_STREAM_MAP st) /\
    LOG_STREAM_MAP st' =
      claim_all (unclaimed (LOG_STREAM_MAP st)) (length (threads st)) (LOG_STREAM_MAP st).
Proof.
  intros Hid.
  unfold LogStreamHandler.sync_new_logs_round, LogStreamHandler._get_new_log_streams.
  unfold GlobalManager.get_log_stream_map, ref_items.
  unfold bind at 1. unfold bind at 1. unfold ret at 1. unfold bind at 1. unfold ret at 1.
  unfold deref. fold (unclaimed (LOG_STREAM_MAP st)).
  apply dispatch_loop_run.
  apply Forall_forall. intros k Hk. apply unclaimed_keys in Hk.
  unfold identity_keys in Hid. rewrite Forall_forall in Hid. now apply Hid.
Qed.

(** With no entry waiting for a thread, a round of [sync_new_logs] does
    nothing. *)
Lemma dispatch_round_idle (AWS_LOGS_DIRECTORY : string) (slugify : string -> string)
    (st : State) :
  unclaimed (LOG_STREAM_MAP st) = [] ->
  LogStreamHandler.sync_new_logs_round AWS_LOGS_DIRECTORY slugify st = (Return tt, st).
Proof.
  intros Hnone.
  unfold LogStreamHandler.sync_new_logs_round, LogStreamHandler._get_new_log_streams.
  unfold GlobalManager.get_log_stream_map, ref_items.
  unfold bind at 1. unfold bind at 1. unfold ret at 1. unfold bind at 1. unfold ret at 1.
  unfold deref. fold (unclaimed (LOG_STREAM_MAP st)). rewrite Hnone. reflexivity.
Qed.

Lemma dispatch_keeps_handles_valid (AWS_LOGS_DIRECTORY : string)
    (slugify : string -> string) (st : State) :
  identity_keys st -> handles_valid st ->
  handles_valid (exec (LogStreamHandler.sync_new_logs_round AWS_LOGS_DIRECTORY slugify) st).
Proof.
  intros Hid Hval.
  destruct (@dispatch_round_run AWS_LOGS_DIRECTORY slugify st Hid)
    as (st' & new & Hrun & Hth & Hkeys & Hmap).
  unfold exec. rewrite Hrun. simpl snd.
  intros k t Hg. rewrite Hmap in Hg. rewrite Hth.
  apply get_claim_all_thread in Hg. destruct Hg as [Hold|[Hle Hnth]].
  - destruct (Hval k t Hold) as (a & Ha & Hk). exists a. split; [|exact Hk].
    rewrite nth_error_app1; [exact Ha|]. apply nth_error_Some. congruence.
  - rewrite nth_error_app2 by exact Hle.
    rewrite <- Hkeys, nth_error_map in Hnth.
    destruct (nth_error new (t - length (threads st))) as [a|]; [|discriminate].
    exists a. split; [reflexivity|]. simpl in Hnth. congruence.
Qed.

Lemma discover_keeps_handles_valid (LOG_GROUP_NAME : string)
    (LOG_STREAMS_FILTER : option (list string)) (log_streams : listing) (st : State) :
  identity_keys st -> handles_valid st ->
  handles_valid (exec (LogStreamHandler._discover_log_streams
                         LOG_GROUP_NAME LOG_STREAMS_FILTER log_streams) st).
Proof.
  intros Hid Hval. destruct log_streams as [ds fin].
  rewrite discover_catalog
    by (rewrite (identity_keys_no_group_entry LOG_GROUP_NAME Hid); reflexivity).
  intros k t Hg. simpl in Hg. apply get_register_all_thread in Hg.
  simpl. now apply Hval.
Qed.

(** What one tick keeps and what it can only add to. *)
Lemma run_tick_facts (LOG_GROUP_NAME AWS_LOGS_DIRECTORY : string)
    (LOG_STREAMS_FILTER : option (list string)) (slugify : string -> string)
    (t : tick) (st : State) :
  identity_keys st -> NoDup (dict_keys (LOG_STREAM_MAP st)) ->
  let st' := exec (run_tick LOG_GROUP_NAME AWS_LOGS_DIRECTORY LOG_STREAMS_FILTER slugify t)
               st in
  identity_keys st' /\ NoDup (dict_keys (LOG_STREAM_MAP st')) /\
  (handles_valid st -> handles_valid st') /\
  incl (dict_keys (LOG_STREAM_MAP st)) (dict_keys (LOG_STREAM_MAP st')) /\
  exists new, threads st' = threads st ++ new.
Proof.
  intros Hid Hnd. cbv zeta. destruct t as [[ds fin]|]; simpl run_tick.
  - destruct (@discover_keeps_catalog_shape LOG_GROUP_NAME LOG_STREAMS_FILTER (ds, fin) st
                Hid Hnd) as [Hid' Hnd'].
    split; [exact Hid'|]. split; [exact Hnd'|].
    split; [now apply discover_keeps_handles_valid|].
    rewrite discover_catalog
      by (rewrite (identity_keys_no_group_entry LOG_GROUP_NAME Hid); reflexivity).
    simpl. split.
    + intros k Hk. apply In_keys_register_all. now left.
    + exists []. now rewrite app_nil_r.
  - split; [|split; [|split; [now apply dispatch_keeps_handles_valid|]]].
    + destruct (@dispatch_claims_each_once AWS_LOGS_DIRECTORY slugify st Hid Hnd)
        as (st' & new & Hrun & _ & _ & _ & _ & Hkeys & _).
      unfold exec. rewrite Hrun. simpl snd. unfold identity_keys. now rewrite Hkeys.
    + destruct (@dispatch_claims_each_once AWS_LOGS_DIRECTORY slugify st Hid Hnd)
        as (st' & new & Hrun & _ & _ & _ & _ & Hkeys & _).
      unfold exec. rewrite Hrun. simpl snd. now rewrite Hkeys.
    + destruct (@dispatch_claims_each_once AWS_LOGS_DIRECTORY slugify st Hid Hnd)
        as (st' & new & Hrun & Hth & _ & _ & _ & Hkeys & _).
      unfold exec. rewrite Hrun. simpl snd. rewrite Hkeys. split.
      * apply incl_refl.
      * now exists new.
Qed.

Lemma run_ticks_facts (LOG_GROUP_NAME AWS_LOGS_DIRECTORY : string)
    (LOG_STREAMS_FILTER : option (list string)) (slugify : string -> string)
    (ts : list tick) (st : State) :
  identity_keys st -> NoDup (dict_keys (LOG_STREAM_MAP st)) ->
  let st' := exec (run_ticks LOG_GROUP_NAME AWS_LOGS_DIRECTORY LOG_STREAMS_FILTER slugify ts)
               st in
  identity_keys st' /\ NoDup (dict_keys (LOG_STREAM_MAP st')) /\
  (handles_valid st -> handles_valid st') /\
  incl (dict_keys (LOG_STREAM_MAP st)) (dict_keys (LOG_STREAM_MAP st')) /\
  exists new, threads st' = threads st ++ new.
Proof.
  cbv zeta. unfold run_ticks, exec.
  revert st. induction ts as [|t ts IH]; intros st Hid Hnd.
  - simpl. repeat split; auto using incl_refl. exists []. now rewrite app_nil_r.
  - simpl for_each. unfold bind.
    pose proof (@run_tick_facts LOG_GROUP_NAME AWS_LOGS_DIRECTORY LOG_STREAMS_FILTER
                  slugify t st Hid Hnd) as Hstep.
    cbv zeta in Hstep. unfold exec in Hstep.
    destruct (run_tick _ _ _ _ t st) as [[[]|e] s1]; simpl snd in *; [|exact Hstep].
    destruct Hstep as (Hid1 & Hnd1 & Hval1 & Hincl1 & new1 & Hth1).
    destruct (IH s1 Hid1 Hnd1) as (Hid2 & Hnd2 & Hval2 & Hincl2 & new2 & Hth2).
    split; [exact Hid2|]. split; [exact Hnd2|]. split; [auto|]. split.
    + eapply incl_tran; eassumption.
    + exists (new1 ++ new2). now rewrite Hth2, Hth1, app_assoc.
Qed.

Lemma example_state_shape :
  identity_keys example_state /\ NoDup (dict_keys (LOG_STREAM_MAP example_state)).
Proof.
  split.
  - repeat constructor.
  - repeat constructor; simpl; intuition discriminate.
Defined.

Lemma example_state_handles : handles_valid example_state.
Proof.
  intros k t. simpl.
  destruct (key_eqb k ["g"; "a"]); [discriminate|].
  destruct (key_eqb k ["g"; "b"]) eqn:Ek.
  - intros [= <-]. exists (mkThread "logs/g/b.log" "g" "b"). split; [reflexivity|].
    apply (key_eqb_eq (K := tuple)) in Ek. now subst k.
  - destruct (key_eqb k ["g"; "c"]); discriminate.
Defined.

(** X3: one round of [sync_new_logs] on a catalog keyed by (group,
    stream) pairs, one entry per identity, returns normally; it starts
    one thread for each entry whose value is [None], in catalog order and
    without repetition, leaves no entry with [None], keeps the keys and
    leaves every entry that already had a thread as it was. *)
Theorem sync_round_starts_one_thread_per_waiting_entry (AWS_LOGS_DIRECTORY : string)
    (slugify : string -> string) (st : State) :
  identity_keys st -> NoDup (dict_keys (LOG_STREAM_MAP st)) ->
  exists st' new,
    LogStreamHandler.sync_new_logs_round AWS_LOGS_DIRECTORY slugify st = (Return tt, st') /\
    threads st' = threads st ++ new /\
    map thread_key new = unclaimed (LOG_STREAM_MAP st) /\
    NoDup (map thread_key new) /\
    unclaimed (LOG_STREAM_MAP st') = [] /\
    dict_keys (LOG_STREAM_MAP st') = dict_keys (LOG_STREAM_MAP st) /\
    (forall k t, dict_get k (LOG_STREAM_MAP st) = Some (Some t) ->
                 dict_get k (LOG_STREAM_MAP st') = Some (Some t)).
Proof. apply dispatch_claims_each_once. Qed.

Lemma sync_round_starts_one_thread_per_waiting_entry_witness :
  identity_keys example_state /\ NoDup (dict_keys (LOG_STREAM_MAP example_state)) /\
  exists st' new,
    LogStreamHandler.sync_new_logs_round "logs" (fun s => s) example_state
      = (Return tt, st') /\
    threads st' = threads example_state ++ new /\
    map thread_key new = [["g"; "a"]; ["g"; "c"]].
Proof.
  destruct example_state_shape as [Hid Hnd]. split; [exact Hid|]. split; [exact Hnd|].
  destruct (@sync_round_starts_one_thread_per_waiting_entry "logs" (fun s => s)
              example_state Hid Hnd) as (st' & new & Hrun & Hth & Hkeys & _).
  exists st', new. split; [exact Hrun|]. split; [exact Hth | exact Hkeys].
Defined.

Lemma sync_new_logs_idle (AWS_LOGS_DIRECTORY : string) (slugify : string -> string)
    (rounds : nat) (st : State) :
  unclaimed (LOG_STREAM_MAP st) = [] ->
  LogStreamHandler.sync_new_logs AWS_LOGS_DIRECTORY slugify rounds st = (Return tt, st).
Proof.
  intros Hnone. induction rounds as [|n IH]; [reflexivity|].
  simpl. unfold bind. now rewrite dispatch_round_idle.
Qed.

(** X4: as long as no discovery round intervenes, further rounds of
    [sync_new_logs] start nothing: any positive number of rounds leaves
    the same state as one round. *)
Theorem sync_new_logs_rounds_collapse (AWS_LOGS_DIRECTORY : string)
    (slugify : string -> string) (rounds : nat) (st : State) :
  identity_keys st -> NoDup (dict_keys (LOG_STREAM_MAP st)) ->
  LogStreamHandler.sync_new_logs AWS_LOGS_DIRECTORY slugify (S rounds) st
  = LogStreamHandler.sync_new_logs AWS_LOGS_DIRECTORY slugify 1 st.
Proof.
  intros Hid Hnd.
  destruct (@dispatch_claims_each_once AWS_LOGS_DIRECTORY slugify st Hid Hnd)
    as (st' & new & Hrun & _ & _ & _ & Hnone & _).
  simpl. unfold bind. rewrite Hrun. now rewrite sync_new_logs_idle.
Qed.

Lemma sync_new_logs_rounds_collapse_witness :
  identity_keys example_state /\ NoDup (dict_keys (LOG_STREAM_MAP example_state)) /\
  LogStreamHandler.sync_new_logs "logs" (fun s => s) 3 example_state
  = LogStreamHandler.sync_new_logs "logs" (fun s => s) 1 example_state.
Proof.
  destruct example_state_shape as [Hid Hnd]. split; [exact Hid|]. split; [exact Hnd|].
  exact (@sync_new_logs_rounds_collapse "logs" (fun s => s) 2 example_state Hid Hnd).
Defined.

(** X5: along every schedule of discovery and dispatch rounds the catalog
    stays keyed by (group, stream) pairs with one entry per identity, no
    entry is ever removed from it, and the threads started so far stay
    started: the thread list only grows at its end. *)
Theorem schedule_keeps_catalog_and_threads (LOG_GROUP_NAME AWS_LOGS_DIRECTORY : string)
    (LOG_STREAMS_FILTER : option (list string)) (slugify : string -> string)
    (ts : list tick) (st : State) :
  identity_keys st -> NoDup (dict_keys (LOG_STREAM_MAP st)) ->
  let st' := exec (run_ticks LOG_GROUP_NAME AWS_LOGS_DIRECTORY LOG_STREAMS_FILTER slugify ts)
               st in
  identity_keys st' /\ NoDup (dict_keys (LOG_STREAM_MAP st')) /\
  incl (dict_keys (LOG_STREAM_MAP st)) (dict_keys (LOG_STREAM_MAP st')) /\
  exists new, threads st' = threads st ++ new.
Proof.
  intros Hid Hnd.
  destruct (@run_ticks_facts LOG_GROUP_NAME AWS_LOGS_DIRECTORY LOG_STREAMS_FILTER slugify
              ts st Hid Hnd) as (H1 & H2 & _ & H3 & H4).
  cbv zeta. auto.
Qed.

Lemma schedule_keeps_catalog_and_threads_witness :
  identity_keys example_state /\ NoDup (dict_keys (LOG_STREAM_MAP example_state)) /\
  incl (dict_keys (LOG_STREAM_MAP example_state))
       (dict_keys (LOG_STREAM_MAP
          (exec (run_ticks "g" "logs" None (fun s => s)
                   [Discover ([mkLogStream "d"], None); Dispatch]) example_state))).
Proof.
  destruct example_state_shape as [Hid Hnd]. split; [exact Hid|]. split; [exact Hnd|].
  destruct (@schedule_keeps_catalog_and_threads "g" "logs" None (fun s => s)
              [Discover ([mkLogStream "d"], None); Dispatch] example_state Hid Hnd)
    as (_ & _ & Hincl & _).
  exact Hincl.
Defined.

(** X6: along every schedule, a thread object stored in the catalog is
    always the index of a thread that was started, and that thread was
    started with the (group, stream) of the entry it is stored under. *)
Theorem schedule_keeps_handles_valid (LOG_GROUP_NAME AWS_LOGS_DIRECTORY : string)
    (LOG_STREAMS_FILTER : option (list string)) (slugify : string -> string)
    (ts : list tick) (st : State) :
  identity_keys st -> NoDup (dict_keys (LOG_STREAM_MAP st)) -> handles_valid st ->
  handles_valid
    (exec (run_ticks LOG_GROUP_NAME AWS_LOGS_DIRECTORY LOG_STREAMS_FILTER slugify ts) st).
Proof.
  intros Hid Hnd Hval.
  destruct (@run_ticks_facts LOG_GROUP_NAME AWS_LOGS_DIRECTORY LOG_STREAMS_FILTER slugify
              ts st Hid Hnd) as (_ & _ & H & _).
  now apply H.
Qed.

Lemma schedule_keeps_handles_valid_witness :
  identity_keys example_state /\ NoDup (dict_keys (LOG_STREAM_MAP example_state)) /\
  handles_valid example_state /\
  handles_valid
    (exec (run_ticks "g" "logs" None (fun s => s)
             [Dispatch; Discover ([mkLogStream "b"; mkLogStream "d"], None); Dispatch])
          example_state).
Proof.
  destruct example_state_shape as [Hid Hnd]. split; [exact Hid|]. split; [exact Hnd|].
  split; [exact example_state_handles|].
  exact (@schedule_keeps_handles_valid "g" "logs" None (fun s => s)
           [Dispatch; Discover ([mkLogStream "b"; mkLogStream "d"], None); Dispatch]
           example_state Hid Hnd example_state_handles).
Defined.

(** ** More on discovery *)

Lemma register_all_app (group : string) (a b : list string)
    (m : dict tuple (option thread)) :
  register_all group (a ++ b) m = register_all group b (register_all group a m).
Proof. unfold register_all. apply fold_left_app. Qed.

(** Registering names whose entries all hold [None] changes nothing. *)
Lemma register_all_present (group : string) (names : list string)
    (m : dict tuple (option thread)) :
  (forall n, In n names -> dict_get [group; n] m = Some None) ->
  register_all group names m = m.
Proof.
  induction names as [|a names IH]; intros Hall; [reflexivity|].
  simpl. rewrite dict_set_same by (apply Hall; now left).
  apply IH. intros n Hn. apply Hall. now right.
Qed.

Lemma register_all_idem (group : string) (names : list string)
    (m : dict tuple (option thread)) :
  register_all group names (register_all group names m) = register_all group names m.
Proof.
  apply register_all_present. intros n Hn. apply get_register_all. now left.
Qed.

(** X7: a discovery round repeated with the same listing, with nothing
    in between, changes nothing the second time: on a catalog keyed by
    (group, stream) pairs the state after two rounds is the state after
    one. *)
Theorem discovery_repeated_is_idempotent (LOG_GROUP_NAME : string)
    (LOG_STREAMS_FILTER : option (list string))
    (ds : list log_stream) (fin fin' : option exn) (st : State) :
  identity_keys st -> NoDup (dict_keys (LOG_STREAM_MAP st)) ->
  let once := exec (LogStreamHandler._discover_log_streams
                      LOG_GROUP_NAME LOG_STREAMS_FILTER (ds, fin)) st in
  exec (LogStreamHandler._discover_log_streams
          LOG_GROUP_NAME LOG_STREAMS_FILTER (ds, fin')) once
  = once.
Proof.
  intros Hid Hnd. cbv zeta.
  destruct (@discover_keeps_catalog_shape LOG_GROUP_NAME LOG_STREAMS_FILTER (ds, fin) st
              Hid Hnd) as [Hid1 _].
  rewrite (@discover_catalog LOG_GROUP_NAME LOG_STREAMS_FILTER ds fin' _)
    by (rewrite (identity_keys_no_group_entry LOG_GROUP_NAME Hid1); reflexivity).
  rewrite discover_catalog
    by (rewrite (identity_keys_no_group_entry LOG_GROUP_NAME Hid); reflexivity).
  simpl LOG_STREAM_MAP. rewrite register_all_idem. reflexivity.
Qed.

Lemma discovery_repeated_is_idempotent_witness :
  identity_keys example_state /\ NoDup (dict_keys (LOG_STREAM_MAP example_state)) /\
  let once := exec (LogStreamHandler._discover_log_streams "g" (Some ["a"; "d"])
                      ([mkLogStream "d"; mkLogStream "e"; mkLogStream "a"], None))
                   example_state in
  exec (LogStreamHandler._discover_log_streams "g" (Some ["a"; "d"])
          ([mkLogStream "d"; mkLogStream "e"; mkLogStream "a"], None)) once
  = once.
Proof.
  destruct example_state_shape as [Hid Hnd]. split; [exact Hid|]. split; [exact Hnd|].
  exact (@discovery_repeated_is_idempotent "g" (Some ["a"; "d"])
           [mkLogStream "d"; mkLogStream "e"; mkLogStream "a"] None None
           example_state Hid Hnd).
Defined.

(** X8: rounds of [discover_logs] whose listings all end normally add
    up: the loop is still running, and the catalog is the one a single
    round over the concatenated listings would give, the wanted names
    being registered in the order they were first listed. *)
Theorem discover_logs_rounds_accumulate (LOG_GROUP_NAME : string)
    (LOG_STREAMS_FILTER : option (list string)) (rounds : list listing) (st : State) :
  identity_keys st -> NoDup (dict_keys (LOG_STREAM_MAP st)) ->
  Forall listing_ok rounds ->
  LogStreamHandler.discover_logs LOG_GROUP_NAME LOG_STREAMS_FILTER rounds st
  = (Return tt,
     with_LOG_STREAM_MAP
       (register_all LOG_GROUP_NAME
          (filter (LogStreamHandler._wanted_log_stream LOG_STREAMS_FILTER)
                  (map logStreamName (concat (map fst rounds))))
          (LOG_STREAM_MAP st))
       st).
Proof.
  revert st. induction rounds as [|[ds fin] rounds IH]; intros st Hid Hnd Hok.
  - simpl. destruct st; reflexivity.
  - inversion Hok as [|? ? H0 Hrest]; subst. unfold listing_ok in H0. simpl in H0.
    subst fin. simpl LogStreamHandler.discover_logs. unfold bind.
    rewrite discover_outcome.
    destruct (@discover_keeps_catalog_shape LOG_GROUP_NAME LOG_STREAMS_FILTER (ds, None) st
                Hid Hnd) as [Hid1 Hnd1].
    rewrite IH by assumption.
    rewrite discover_catalog
      by (rewrite (identity_keys_no_group_entry LOG_GROUP_NAME Hid); reflexivity).
    simpl. rewrite map_app, filter_app, register_all_app. reflexivity.
Qed.

Lemma discover_logs_rounds_accumulate_witness :
  identity_keys initial_state /\ NoDup (dict_keys (LOG_STREAM_MAP initial_state)) /\
  Forall listing_ok [([mkLogStream "s2"; mkLogStream "s1"], None);
                     ([mkLogStream "s3"; mkLogStream "s2"], None)] /\
  LogStreamHandler.discover_logs "g" None
    [([mkLogStream "s2"; mkLogStream "s1"], None);
     ([mkLogStream "s3"; mkLogStream "s2"], None)] initial_state
  = (Return tt,
     with_LOG_STREAM_MAP
       [(["g"; "s2"], None); (["g"; "s1"], None); (["g"; "s3"], None)] initial_state).
Proof.
  assert (Hid : identity_keys initial_state) by constructor.
  assert (Hnd : NoDup (dict_keys (LOG_STREAM_MAP initial_state))) by constructor.
  assert (Hok : Forall listing_ok [([mkLogStream "s2"; mkLogStream "s1"], @None exn);
                                   ([mkLogStream "s3"; mkLogStream "s2"], @None exn)]).
  { repeat constructor. }
  split; [exact Hid|]. split; [exact Hnd|]. split; [exact Hok|].
  exact (@discover_logs_rounds_accumulate "g" None
           [([mkLogStream "s2"; mkLogStream "s1"], None);
            ([mkLogStream "s3"; mkLogStream "s2"], None)] initial_state Hid Hnd Hok).
Defined.

Lemma fold_left_const {A B} (l : list A) (b : B) : fold_left (fun s _ => s) l b = b.
Proof. induction l as [|x l IH]; [reflexivity | exact IH]. Qed.

(** X9: an allow-list that is present but empty lets no stream through:
    whatever is listed and whatever the catalog holds, the discovery round
    leaves the whole state as it was (it only raises what the listing
    raises). *)
Theorem empty_allow_list_registers_nothing (LOG_GROUP_NAME : string)
    (ds : list log_stream) (fin : option exn) (st : State) :
  LogStreamHandler._discover_log_streams LOG_GROUP_NAME (Some []) (ds, fin) st
  = (match fin with None => Return tt | Some e => Raise e end, st).
Proof.
  rewrite discover_outcome. f_equal.
  unfold exec, LogStreamHandler._discover_log_streams. simpl fst. simpl snd.
  match goal with |- context [for_each ds ?b] => set (body := b) end.
  destruct (@for_each_fold _ (fun _ => True) body (fun _ s => s)) with (l := ds) (s := st)
    as [Hrun _]; [|exact I|].
  { intros x s _. split; [|exact I]. subst body. cbv beta.
    unfold GlobalManager.get_log_stream_map, ref_get, bind, ret.
    destruct (negb _); reflexivity. }
  unfold bind. rewrite Hrun. simpl. apply fold_left_const.
Qed.

(** ** What a worker leaves alone *)

Lemma same_except_file_refl (file_name : string) (st : State) :
  same_except_file file_name st st.
Proof. repeat split. Qed.

Lemma same_except_file_trans (file_name : string) (a b c : State) :
  same_except_file file_name a b -> same_except_file file_name b c ->
  same_except_file file_name a c.
Proof.
  intros (Hm1 & Ht1 & Hf1) (Hm2 & Ht2 & Hf2). split; [congruence|]. split; [congruence|].
  intros path Hne. now rewrite Hf2, Hf1.
Qed.

Section WorkerFrame.
Variable LogEvent : Type.
Variable str : LogEvent -> string.

Lemma write_events_frame (fhandle : nat) (file_name : string) (logs : list LogEvent) :
  forall st : State,
  dict_get fhandle (open_files st) = Some (file_name, "") ->
  exists st',
    for_each logs (fun _log =>
      fwrite fhandle (str _log ++ nl)%string ;; fflush fhandle) st = (Return tt, st') /\
    dict_get fhandle (open_files st') = Some (file_name, "") /\
    same_except_file file_name st st'.
Proof.
  induction logs as [|r logs IH]; intros st Hfd.
  - exists st. simpl. auto using same_except_file_refl.
  - simpl for_each. unfold bind at 1. unfold bind at 1.
    erewrite fwrite_run by exact Hfd.
    erewrite fflush_run by (simpl; apply dict_get_set_eq).
    match goal with |- context [for_each logs _ ?s] => set (s2 := s) end.
    destruct (IH s2) as (st' & Hrun & Hfd' & Hsame).
    { subst s2. simpl. apply dict_get_set_eq. }
    exists st'. split; [exact Hrun|]. split; [exact Hfd'|].
    apply same_except_file_trans with s2; [|exact Hsame].
    subst s2. split; [reflexivity|]. split; [reflexivity|].
    intros path Hne. simpl. apply dict_get_set_ne. congruence.
Qed.

Lemma write_pages_frame (fhandle : nat) (file_name log_stream_name : string)
    (pages : list (list LogEvent * token)) :
  forall st : State,
  dict_get fhandle (open_files st) = Some (file_name, "") ->
  exists st',
    for_each pages (fun page =>
      let '(_logs, next_token) := page in
      for_each _logs (fun _log =>
        fwrite fhandle (str _log ++ nl)%string ;; fflush fhandle) ;;
      GlobalManager.set_checkpoint log_stream_name next_token) st = (Return tt, st') /\
    dict_get fhandle (open_files st') = Some (file_name, "") /\
    same_except_file file_name st st'.
Proof.
  induction pages as [|[logs tok] pages IH]; intros st Hfd.
  - exists st. simpl. auto using same_except_file_refl.
  - simpl for_each. unfold bind at 1. unfold bind at 1.
    destruct (@write_events_frame fhandle file_name logs st Hfd)
      as (s1 & Hrun1 & Hfd1 & Hsame1).
    rewrite Hrun1. unfold GlobalManager.set_checkpoint, modify.
    match goal with |- context [for_each pages _ ?s] => set (s2 := s) end.
    destruct (IH s2) as (st' & Hrun & Hfd' & Hsame).
    { subst s2. simpl. exact Hfd1. }
    exists st'. split; [exact Hrun|]. split; [exact Hfd'|].
    apply same_except_file_trans with s1; [exact Hsame1|].
    apply same_except_file_trans with s2; [|exact Hsame].
    subst s2. repeat split.
Qed.

(** X10: a worker touches nothing but its own file and the checkpoint
    store: whatever the source yields and however it ends, [write_log]
    leaves the catalog, the list of started threads and the content of
    every other file as they were. *)
Theorem write_log_leaves_rest_alone (file_name log_group_name log_stream_name : string)
    (pages : list (list LogEvent * token)) (fin : option exn) (st : State) :
  let st' := exec (LogStreamHandler.write_log str file_name log_group_name log_stream_name
                     (pages, fin)) st in
  LOG_STREAM_MAP st' = LOG_STREAM_MAP st /\
  threads st' = threads st /\
  forall path, path <> file_name -> file_content st' path = file_content st path.
Proof.
  cbv zeta.
  assert (Hsame : same_except_file file_name st
            (exec (LogStreamHandler.write_log str file_name log_group_name log_stream_name
                     (pages, fin)) st)).
  { unfold exec, LogStreamHandler.write_log. simpl fst. simpl snd.
    unfold bind at 1. unfold LogStreamHandler._create_file_if_does_not_exist, modify.
    set (s0 := if dict_mem file_name (files st) then st
               else with_files (dict_set file_name "" (files st)) st).
    assert (Hs0 : same_except_file file_name st s0).
    { subst s0. destruct (dict_mem file_name (files st));
        [apply same_except_file_refl|].
      split; [reflexivity|]. split; [reflexivity|].
      intros path Hne. simpl. apply dict_get_set_ne. congruence. }
    unfold bind at 1. unfold open_append.
    match goal with |- context [bind (for_each pages _) _ ?s] => set (s1 := s) end.
    assert (Hs1 : same_except_file file_name s0 s1).
    { subst s1. destruct (dict_mem file_name (files s0)).
      - repeat split.
      - split; [reflexivity|]. split; [reflexivity|].
        intros path Hne. simpl. apply dict_get_set_ne. congruence. }
    destruct (@write_pages_frame (next_fd s0) file_name log_stream_name pages s1)
      as (s2 & Hrun & Hfd2 & Hs2).
    { subst s1. simpl. apply dict_get_set_eq. }
    unfold bind at 1. rewrite Hrun.
    assert (Hst2 : same_except_file file_name st s2)
      by (eapply same_except_file_trans; [exact Hs0|];
          eapply same_except_file_trans; eassumption).
    destruct fin as [e|]; unfold bind, sequence_end, raise, ret; simpl snd.
    - exact Hst2.
    - erewrite fclose_run by exact Hfd2. simpl snd.
      eapply same_except_file_trans; [exact Hst2|].
      split; [reflexivity|]. split; [reflexivity|].
      intros path Hne. simpl. apply dict_get_set_ne. congruence. }
  destruct Hsame as (Hm & Ht & Hf). split; [exact Hm|]. split; [exact Ht|].
  intros path Hne. unfold file_content. now rewrite Hf.
Qed.

End WorkerFrame.

Lemma write_log_leaves_rest_alone_witness :
  "g/other.log" <> "g/s1.log" /\
  let st := with_files [("g/other.log", "kept")] example_state in
  let st' := exec (LogStreamHandler.write_log (fun s : string => s) "g/s1.log" "g" "s1"
                     ([(["rec1"], Some "tok1")], Some (ClientError "reset"))) st in
  file_content st' "g/other.log" = "kept".
Proof.
  assert (Hne : "g/other.log" <> "g/s1.log") by discriminate.
  split; [exact Hne|]. cbv zeta.
  destruct (@write_log_leaves_rest_alone string (fun s : string => s) "g/s1.log" "g" "s1"
              [(["rec1"], Some "tok1")] (Some (ClientError "reset"))
              (with_files [("g/other.log", "kept")] example_state))
    as (_ & _ & Hf).
  exact (Hf "g/other.log" Hne).
Defined.

(** ** More on persistence *)

Section DictUpdateFacts.
Context {K V : Type} {E : PyKey K} {Ok : PyKeyOk K}.

(** Updating with keys that are all new appends them, in their order. *)
Lemma dict_update_disjoint (src d : dict K V) :
  NoDup (dict_keys src) ->
  (forall k, In k (dict_keys src) -> ~ In k (dict_keys d)) ->
  dict_update src d = d ++ src.
Proof.
  revert d. induction src as [|[k v] src IH]; intros d Hnd Hnew.
  - simpl. now rewrite app_nil_r.
  - rewrite dict_update_cons.
    inversion Hnd as [|? ? Hk Hnd']; subst.
    rewrite dict_set_fresh by (apply Hnew; now left).
    rewrite IH; [now rewrite <- app_assoc | exact Hnd' |].
    intros k' Hk' Hin. unfold dict_keys in Hin. rewrite map_app in Hin.
    apply in_app_or in Hin. destruct Hin as [Hin|[<-|[]]].
    + apply (Hnew k'); [now right | exact Hin].
    + now apply Hk.
Qed.

End DictUpdateFacts.

Lemma persisted_state_last (cp : dict string token) (clock : list string)
    (now : string) (state : dict string token) :
  persisted_state now cp (fold_left (fun s t => persisted_state t cp s) clock state)
  = persisted_state now cp state.
Proof.
  revert state. induction clock as [|t clock IH]; intros state; [reflexivity|].
  simpl. rewrite IH. apply persisted_state_twice.
Qed.

Section PersistLoop.
Variable encode_basestring_ascii : string -> string.

(** The loop of [persist_state] over a list of clock readings. *)
Lemma persist_state_loop_run (location : string) (clock : list string) :
  forall (state : dict string token) (st : State),
  exists st',
    LogStreamHandler.persist_state_loop encode_basestring_ascii location clock state st
      = (Return (fold_left (fun s t => persisted_state t (LOG_STREAM_CHECKPOINT st) s)
                   clock state), st') /\
    LOG_STREAM_CHECKPOINT st' = LOG_STREAM_CHECKPOINT st /\
    (clock <> [] ->
     file_content st' location =
       json_dumps encode_basestring_ascii
         (fold_left (fun s t => persisted_state t (LOG_STREAM_CHECKPOINT st) s)
            clock state)).
Proof.
  induction clock as [|now clock IH]; intros state st.
  - exists st. simpl. unfold ret. split; [reflexivity|]. split; [reflexivity|]. congruence.
  - simpl LogStreamHandler.persist_state_loop. unfold bind.
    destruct (persist_state_round_run encode_basestring_ascii location now state st)
      as (s1 & Hrun1 & Hfile1 & Hcp1).
    rewrite Hrun1.
    destruct (IH (persisted_state now (LOG_STREAM_CHECKPOINT st) state) s1)
      as (st' & Hrun & Hcp & Hfile).
    rewrite Hcp1 in Hrun, Hcp, Hfile.
    exists st'. split; [exact Hrun|]. split; [exact Hcp|].
    intros _. destruct clock as [|t clock].
    + simpl in Hrun. unfold ret in Hrun. injection Hrun as <-. exact Hfile1.
    + apply Hfile. discriminate.
Qed.

End PersistLoop.

(** X11: after any number of rounds of [persist_state], the last at
    clock reading [now], over a checkpoint store that has one entry per
    stream and no stream named ["modified_time"], the state file holds
    exactly the serialization of ["modified_time": now] followed by the
    checkpoint entries in store order, whatever the file held before and
    whatever the earlier readings were; the store itself is unchanged. *)
Theorem persist_state_writes_timestamp_then_checkpoints
    (encode_basestring_ascii : string -> string) (location : string)
    (clock : list string) (now : string) (st : State) :
  NoDup (dict_keys (LOG_STREAM_CHECKPOINT st)) ->
  ~ In "modified_time" (dict_keys (LOG_STREAM_CHECKPOINT st)) ->
  let run := LogStreamHandler.persist_state encode_basestring_ascii location
               (clock ++ [now]) st in
  fst run = Return (("modified_time", Some now) :: LOG_STREAM_CHECKPOINT st) /\
  file_content (snd run) location =
    json_dumps encode_basestring_ascii
      (("modified_time", Some now) :: LOG_STREAM_CHECKPOINT st) /\
  LOG_STREAM_CHECKPOINT (snd run) = LOG_STREAM_CHECKPOINT st.
Proof.
  intros Hnd Hmt. cbv zeta. unfold LogStreamHandler.persist_state.
  destruct (persist_state_loop_run encode_basestring_ascii location (clock ++ [now]) [] st)
    as (st' & Hrun & Hcp & Hfile).
  rewrite Hrun. simpl fst. simpl snd.
  assert (Hfinal : fold_left (fun s t => persisted_state t (LOG_STREAM_CHECKPOINT st) s)
                     (clock ++ [now]) []
                   = ("modified_time", Some now) :: LOG_STREAM_CHECKPOINT st).
  { rewrite fold_left_app. simpl. rewrite persisted_state_last.
    unfold persisted_state. simpl dict_set.
    rewrite dict_update_disjoint; [reflexivity | exact Hnd |].
    intros k Hk [<-|[]]. now apply Hmt. }
  rewrite Hfile by (destruct clock; discriminate).
  rewrite Hfinal. auto.
Qed.

Lemma persist_state_writes_timestamp_then_checkpoints_witness :
  let st := with_files [("cwl.state", "stale")]
              (with_LOG_STREAM_CHECKPOINT [("s1", Some "tok1"); ("s2", None)]
                 initial_state) in
  NoDup (dict_keys (LOG_STREAM_CHECKPOINT st)) /\
  ~ In "modified_time" (dict_keys (LOG_STREAM_CHECKPOINT st)) /\
  file_content
    (snd (LogStreamHandler.persist_state py_encode_basestring_ascii "cwl.state"
            (["Mon"; "Tue"] ++ ["Wed"]) st))
    "cwl.state"
  = json_dumps py_encode_basestring_ascii
      [("modified_time", Some "Wed"); ("s1", Some "tok1"); ("s2", None)].
Proof.
  cbv zeta.
  assert (Hnd : NoDup (dict_keys (LOG_STREAM_CHECKPOINT
            (with_files [("cwl.state", "stale")]
               (with_LOG_STREAM_CHECKPOINT [("s1", Some "tok1"); ("s2", None)]
                  initial_state))))).
  { repeat constructor; simpl; intuition discriminate. }
  assert (Hmt : ~ In "modified_time" (dict_keys (LOG_STREAM_CHECKPOINT
            (with_files [("cwl.state", "stale")]
               (with_LOG_STREAM_CHECKPOINT [("s1", Some "tok1"); ("s2", None)]
                  initial_state))))).
  { simpl. intuition discriminate. }
  split; [exact Hnd|]. split; [exact Hmt|].
  destruct (@persist_state_writes_timestamp_then_checkpoints py_encode_basestring_ascii
              "cwl.state" ["Mon"; "Tue"] "Wed" _ Hnd Hmt) as (_ & Hfile & _).
  exact Hfile.
Defined.

(** ** The stores of [GlobalManager] as maps *)

(** X12: what was stored is what is read back.  After
    [set_log_stream_map(key, value)], [get_log_stream_map().get(key)]
    gives [value]; every other key reads as before; a catalog with one
    entry per key keeps one entry per key; the checkpoint store is not
    touched.  The same holds for [set_checkpoint] and [get_checkpoint],
    which leave the catalog alone. *)
Theorem global_manager_set_then_get (st : State)
    (key : tuple) (value : option thread) (ckey : string) (cvalue : token) :
  let st1 := exec (GlobalManager.set_log_stream_map key value) st in
  let st2 := exec (GlobalManager.set_checkpoint ckey cvalue) st in
  outcome (m <- GlobalManager.get_log_stream_map ;; ref_get m key) st1
    = Return (Some value) /\
  (forall k, k <> key ->
     outcome (m <- GlobalManager.get_log_stream_map ;; ref_get m k) st1
     = outcome (m <- GlobalManager.get_log_stream_map ;; ref_get m k) st) /\
  (NoDup (dict_keys (LOG_STREAM_MAP st)) -> NoDup (dict_keys (LOG_STREAM_MAP st1))) /\
  LOG_STREAM_CHECKPOINT st1 = LOG_STREAM_CHECKPOINT st /\
  outcome (c <- GlobalManager.get_checkpoint ;; ref_get c ckey) st2
    = Return (Some cvalue) /\
  (forall k, k <> ckey ->
     outcome (c <- GlobalManager.get_checkpoint ;; ref_get c k) st2
     = outcome (c <- GlobalManager.get_checkpoint ;; ref_get c k) st) /\
  (NoDup (dict_keys (LOG_STREAM_CHECKPOINT st)) ->
   NoDup (dict_keys (LOG_STREAM_CHECKPOINT st2))) /\
  LOG_STREAM_MAP st2 = LOG_STREAM_MAP st.
Proof.
  cbv zeta. unfold outcome, exec. simpl.
  split; [now rewrite dict_get_set_eq|].
  split; [intros k Hne; rewrite dict_get_set_ne by congruence; reflexivity|].
  split; [apply dict_NoDup_keys_set|].
  split; [reflexivity|].
  split; [now rewrite dict_get_set_eq|].
  split; [intros k Hne; rewrite dict_get_set_ne by congruence; reflexivity|].
  split; [apply dict_NoDup_keys_set | reflexivity].
Qed.

Lemma global_manager_set_then_get_witness :
  ["g"; "a"] <> ["g"; "b"] /\
  outcome (m <- GlobalManager.get_log_stream_map ;; ref_get m ["g"; "a"])
    (exec (GlobalManager.set_log_stream_map ["g"; "b"] None) example_state)
  = Return (Some None).
Proof.
  assert (Hne : ["g"; "a"] <> ["g"; "b"]) by discriminate.
  split; [exact Hne|].
  destruct (@global_manager_set_then_get example_state ["g"; "b"] None "s" None)
    as (_ & Hother & _).
  rewrite (Hother ["g"; "a"] Hne). reflexivity.
Defined.

(** ** The readers beside the other threads *)

Lemma skipn_nth_cons {A} (l : list A) (pos : nat) (x : A) :
  nth_error l pos = Some x -> skipn pos l = x :: skipn (S pos) l.
Proof.
  revert pos. induction l as [|y l IH]; intros [|pos]; simpl; try discriminate.
  - now intros [= ->].
  - intros H. now rewrite (IH pos H).
Qed.

Lemma skipn_past_end {A} (l : list A) (pos : nat) :
  nth_error l pos = None -> skipn pos l = [].
Proof. intros H. apply skipn_all2. now apply nth_error_None. Qed.

Lemma Forall_skipn_of {A} (P : A -> Prop) (l : list A) (n : nat) :
  Forall P l -> Forall P (skipn n l).
Proof.
  revert n. induction l as [|x l IH]; intros [|n] H; simpl; auto.
  inversion H; subst. now apply IH.
Qed.

Section IterateFacts.
Context {K V B : Type}.
Variable r : ref (dict K V).
Variable body : list B -> K * V -> result (list B).
Variable g : K * V -> list B.
Variable P : K * V -> Prop.
Hypothesis body_ok : forall acc item, P item -> body acc item = Return (acc ++ g item).

Lemma iterate_rest_ok (items : list (K * V)) (acc : list B) :
  Forall P items ->
  Interleaved.iterate_rest body items acc = Return (acc ++ flat_map g items).
Proof.
  revert acc. induction items as [|item items IH]; intros acc Hall; simpl.
  - now rewrite app_nil_r.
  - inversion Hall; subst. rewrite body_ok by assumption.
    rewrite IH by assumption. now rewrite <- app_assoc.
Qed.

(** A loop that is left alone for [k] steps and then meets one change
    that keeps the size: the items before come from the dictionary as it
    was, the items from there on from the dictionary as it has become. *)
Lemma iterate_split (k : nat) :
  forall (pos : nat) (acc : list B) (st : State) (other : State -> State),
  Forall P (deref st r) -> Forall P (deref (other st) r) ->
  length (deref (other st) r) = length (deref st r) ->
  pos + k <= length (deref st r) ->
  Interleaved.iterate r body (quiet k ++ [other]) (length (deref st r)) pos acc st
  = (Return (acc ++ flat_map g (firstn k (skipn pos (deref st r)))
                 ++ flat_map g (skipn (pos + k) (deref (other st) r))),
     other st).
Proof.
  induction k as [|k IH]; intros pos acc st other Hall Hall' Hlen Hpos.
  - unfold quiet. cbn [repeat app Interleaved.iterate]. cbv zeta.
    rewrite Hlen, Nat.eqb_refl, Nat.add_0_r.
    destruct (nth_error (deref (other st) r) pos) as [item|] eqn:Hnth.
    + assert (HP : P item).
      { rewrite Forall_forall in Hall'. apply Hall'. eapply nth_error_In; eassumption. }
      rewrite body_ok by exact HP. cbn [Interleaved.iterate]. cbv zeta.
      rewrite ?Hlen, ?Nat.eqb_refl.
      rewrite iterate_rest_ok by (now apply Forall_skipn_of).
      rewrite (skipn_nth_cons _ _ Hnth). cbn [firstn flat_map app].
      now rewrite <- app_assoc.
    + rewrite (skipn_past_end _ _ Hnth). cbn [firstn flat_map app].
      now rewrite app_nil_r.
  - unfold quiet. cbn [repeat app Interleaved.iterate]. cbv zeta.
    rewrite Nat.eqb_refl.
    destruct (nth_error (deref st r) pos) as [item|] eqn:Hnth.
    + assert (HP : P item).
      { rewrite Forall_forall in Hall. apply Hall. eapply nth_error_In; eassumption. }
      rewrite body_ok by exact HP.
      fold (quiet k). rewrite IH by (auto; lia).
      rewrite (skipn_nth_cons _ _ Hnth). cbn [firstn flat_map].
      rewrite <- !app_assoc. now rewrite Nat.add_succ_r.
    + apply nth_error_None in Hnth. lia.
Qed.

(** A loop that is left alone for [k] steps and then finds the size
    changed raises, whatever comes after. *)
Lemma iterate_size_changed (k : nat) :
  forall (pos : nat) (acc : list B) (st : State) (other : State -> State)
         (rest : list (State -> State)),
  Forall P (deref st r) ->
  length (deref (other st) r) <> length (deref st r) ->
  pos + k <= length (deref st r) ->
  Interleaved.iterate r body (quiet k ++ other :: rest) (length (deref st r)) pos acc st
  = (Raise RuntimeError, other st).
Proof.
  induction k as [|k IH]; intros pos acc st other rest Hall Hlen Hpos.
  - unfold quiet. cbn [repeat app Interleaved.iterate]. cbv zeta.
    apply Nat.eqb_neq in Hlen. now rewrite Hlen.
  - unfold quiet. cbn [repeat app Interleaved.iterate]. cbv zeta.
    rewrite Nat.eqb_refl.
    destruct (nth_error (deref st r) pos) as [item|] eqn:Hnth.
    + assert (HP : P item).
      { rewrite Forall_forall in Hall. apply Hall. eapply nth_error_In; eassumption. }
      rewrite body_ok by exact HP.
      fold (quiet k). apply IH; auto; lia.
    + apply nth_error_None in Hnth. lia.
Qed.

(** A loop over a dictionary of its own is out of reach of the other
    threads: it cannot raise for a changed size and yields the items the
    dictionary had. *)
Lemma iterate_own_copy (d : dict K V) (others : list (State -> State)) :
  Forall P d ->
  forall (pos : nat) (acc : list B) (st : State),
  fst (Interleaved.iterate (Fresh d) body others (length d) pos acc st)
  = Return (acc ++ flat_map g (skipn pos d)).
Proof.
  intros Hall. induction others as [|other others IH]; intros pos acc st;
    cbn [Interleaved.iterate deref]; cbv zeta.
  - rewrite Nat.eqb_refl. cbn [fst]. apply iterate_rest_ok. now apply Forall_skipn_of.
  - rewrite Nat.eqb_refl.
    destruct (nth_error d pos) as [item|] eqn:Hnth.
    + assert (HP : P item).
      { rewrite Forall_forall in Hall. apply Hall. eapply nth_error_In; eassumption. }
      rewrite body_ok by exact HP. rewrite IH.
      rewrite (skipn_nth_cons _ _ Hnth). cbn [flat_map]. now rewrite <- app_assoc.
    + rewrite (skipn_past_end _ _ Hnth). cbn [fst flat_map]. now rewrite app_nil_r.
Qed.

End IterateFacts.

Lemma collect_new_ok (acc : list tuple) (item : tuple * option thread) :
  True -> Interleaved.collect_new acc item = Return (acc ++ new_of item).
Proof.
  intros _. unfold Interleaved.collect_new, new_of.
  destruct (snd item); [now rewrite app_nil_r | reflexivity].
Qed.

Lemma log_entry_ok (thread_str : thread -> string) (acc : list string)
    (item : tuple * option thread) :
  length (fst item) = 2 ->
  Interleaved.log_entry thread_str acc item = Return (acc ++ message_of thread_str item).
Proof.
  unfold Interleaved.log_entry, message_of.
  destruct (fst item) as [|a [|b l]]; simpl; try discriminate. reflexivity.
Qed.

Lemma unclaimed_flat_map (m : dict tuple (option thread)) :
  unclaimed m = flat_map new_of m.
Proof.
  unfold unclaimed, new_of. induction m as [|[k v] m IH]; [reflexivity|].
  simpl. destruct v; simpl; now rewrite IH.
Qed.

Lemma Forall_always {A} (l : list A) : Forall (fun _ => True) l.
Proof. apply Forall_forall. auto. Qed.

Lemma identity_keys_items (st : State) :
  identity_keys st ->
  Forall (fun item : tuple * option thread => length (fst item) = 2) (LOG_STREAM_MAP st).
Proof.
  unfold identity_keys, dict_keys. rewrite !Forall_forall.
  intros H item Hin. apply H. now apply in_map.
Qed.

(** With a dictionary of its own, as a copying accessor would hand out,
    the loop of [_get_new_log_streams] would give the entries without a
    thread as they were when the copy was made, whatever the other
    threads do in between. *)
Lemma dispatcher_loop_over_copy (others : list (State -> State)) (st : State) :
  fst (Interleaved.iterate (Fresh (LOG_STREAM_MAP st)) Interleaved.collect_new others
         (length (LOG_STREAM_MAP st)) 0 [] st)
  = Return (unclaimed (LOG_STREAM_MAP st)).
Proof.
  rewrite (@iterate_own_copy _ _ _ Interleaved.collect_new new_of (fun _ => True)
             collect_new_ok (LOG_STREAM_MAP st) others (Forall_always _)).
  now rewrite unclaimed_flat_map.
Qed.

(** C3 (as amended): [get_log_stream_map] and [get_checkpoint] change
    nothing and return the module-level dictionary itself, not a copy, so
    the readers read the live store.  A loop of the dispatcher or of the
    health reporter that the other threads leave alone for [n] steps and
    then change without changing the size takes its first [n] items from
    the catalog as it was and the others from the catalog as it has
    become; when the change alters the size (an entry is inserted), the
    loop raises [RuntimeError].  The persister serializes the checkpoint
    store as the other threads left it after [get_checkpoint] returned.
    Left alone, the dispatcher's loop gives what [_get_new_log_streams]
    gives. *)
Theorem readers_read_live_store (thread_str : thread -> string)
    (encode_basestring_ascii : string -> string)
    (st : State) (other : State -> State) (n : nat) :
  GlobalManager.get_log_stream_map st = (Return (Global LOG_STREAM_MAP), st) /\
  GlobalManager.get_checkpoint st = (Return (Global LOG_STREAM_CHECKPOINT), st) /\
  (n <= length (LOG_STREAM_MAP st) ->
   length (LOG_STREAM_MAP (other st)) = length (LOG_STREAM_MAP st) ->
   Interleaved._get_new_log_streams (quiet n ++ [other]) st
   = (Return (unclaimed (firstn n (LOG_STREAM_MAP st))
                ++ unclaimed (skipn n (LOG_STREAM_MAP (other st)))),
      other st)) /\
  (n <= length (LOG_STREAM_MAP st) ->
   length (LOG_STREAM_MAP (other st)) <> length (LOG_STREAM_MAP st) ->
   forall rest,
     Interleaved._get_new_log_streams (quiet n ++ other :: rest) st
     = (Raise RuntimeError, other st)) /\
  (identity_keys st -> identity_keys (other st) ->
   n <= length (LOG_STREAM_MAP st) ->
   length (LOG_STREAM_MAP (other st)) = length (LOG_STREAM_MAP st) ->
   Interleaved.log_status thread_str (quiet n ++ [other]) st
   = (Return (flat_map (message_of thread_str) (firstn n (LOG_STREAM_MAP st))
                ++ flat_map (message_of thread_str) (skipn n (LOG_STREAM_MAP (other st)))),
      other st)) /\
  (identity_keys st ->
   n <= length (LOG_STREAM_MAP st) ->
   length (LOG_STREAM_MAP (other st)) <> length (LOG_STREAM_MAP st) ->
   forall rest,
     Interleaved.log_status thread_str (quiet n ++ other :: rest) st
     = (Raise RuntimeError, other st)) /\
  (forall location now state,
     exists st',
       Interleaved.persist_state_round encode_basestring_ascii other location now state st
       = (Return (persisted_state now (LOG_STREAM_CHECKPOINT (other st)) state), st') /\
       file_content st' location
       = json_dumps encode_basestring_ascii
           (persisted_state now (LOG_STREAM_CHECKPOINT (other st)) state)) /\
  Interleaved._get_new_log_streams [] st = LogStreamHandler._get_new_log_streams st.
Proof.
  split; [reflexivity|]. split; [reflexivity|].
  split; [|split; [|split; [|split; [|split]]]].
  - intros Hn Hlen.
    unfold Interleaved._get_new_log_streams, GlobalManager.get_log_stream_map,
      Interleaved.ref_len, bind, ret.
    rewrite (@iterate_split _ _ _ (Global LOG_STREAM_MAP) Interleaved.collect_new new_of
               (fun _ => True) collect_new_ok n 0 [] st other
               (Forall_always _) (Forall_always _) Hlen Hn).
    simpl. now rewrite !unclaimed_flat_map.
  - intros Hn Hlen rest.
    unfold Interleaved._get_new_log_streams, GlobalManager.get_log_stream_map,
      Interleaved.ref_len, bind, ret.
    apply (@iterate_size_changed _ _ _ (Global LOG_STREAM_MAP) Interleaved.collect_new
             new_of (fun _ => True) collect_new_ok n 0 [] st other rest
             (Forall_always _) Hlen Hn).
  - intros Hid Hid' Hn Hlen.
    unfold Interleaved.log_status, GlobalManager.get_log_stream_map,
      Interleaved.ref_len, bind, ret.
    rewrite (@iterate_split _ _ _ (Global LOG_STREAM_MAP)
               (Interleaved.log_entry thread_str) (message_of thread_str)
               (fun item => length (fst item) = 2) (log_entry_ok thread_str)
               n 0 [] st other
               (identity_keys_items Hid) (identity_keys_items Hid') Hlen Hn).
    reflexivity.
  - intros Hid Hn Hlen rest.
    unfold Interleaved.log_status, GlobalManager.get_log_stream_map,
      Interleaved.ref_len, bind, ret.
    apply (@iterate_size_changed _ _ _ (Global LOG_STREAM_MAP)
             (Interleaved.log_entry thread_str) (message_of thread_str)
             (fun item => length (fst item) = 2) (log_entry_ok thread_str)
             n 0 [] st other rest (identity_keys_items Hid) Hlen Hn).
  - intros location now state.
    destruct (persist_state_round_run encode_basestring_ascii location now state (other st))
      as (st' & Hrun & Hfile & _).
    exists st'. split; [exact Hrun | exact Hfile].
  - unfold Interleaved._get_new_log_streams, LogStreamHandler._get_new_log_streams,
      GlobalManager.get_log_stream_map, Interleaved.ref_len, ref_items, bind, ret.
    simpl. rewrite Nat.eqb_refl.
    rewrite (@iterate_rest_ok _ _ _ Interleaved.collect_new new_of (fun _ => True)
               collect_new_ok (LOG_STREAM_MAP st) [] (Forall_always _)).
    simpl. fold (unclaimed (LOG_STREAM_MAP st)). now rewrite unclaimed_flat_map.
Qed.

(** On [example_state], whose entries are ["a"] (no thread), ["b"]
    (thread 0) and ["c"] (no thread): after the loop has taken ["a"],
    another thread either gives ["c"] a thread or inserts ["d"]. *)
Lemma readers_read_live_store_witness :
  let claim_c := exec (GlobalManager.set_log_stream_map ["g"; "c"] (Some 1)) in
  let insert_d := exec (GlobalManager.set_log_stream_map ["g"; "d"] None) in
  (1 <= length (LOG_STREAM_MAP example_state) /\
   length (LOG_STREAM_MAP (claim_c example_state)) = length (LOG_STREAM_MAP example_state) /\
   length (LOG_STREAM_MAP (insert_d example_state)) <> length (LOG_STREAM_MAP example_state) /\
   identity_keys example_state /\ identity_keys (claim_c example_state)) /\
  Interleaved._get_new_log_streams (quiet 1 ++ [claim_c]) example_state
  = (Return [["g"; "a"]], claim_c example_state) /\
  Interleaved._get_new_log_streams (quiet 1 ++ [insert_d]) example_state
  = (Raise RuntimeError, insert_d example_state) /\
  Interleaved.log_status (fun _ => "<Thread>") (quiet 1 ++ [claim_c]) example_state
  = (Return ["Log Group: g, Stream: a is processed by: None";
             "Log Group: g, Stream: b is processed by: <Thread>";
             "Log Group: g, Stream: c is processed by: <Thread>"],
     claim_c example_state) /\
  Interleaved.log_status (fun _ => "<Thread>") (quiet 1 ++ [insert_d]) example_state
  = (Raise RuntimeError, insert_d example_state).
Proof.
  cbv zeta.
  set (claim_c := exec (GlobalManager.set_log_stream_map ["g"; "c"] (Some 1))).
  set (insert_d := exec (GlobalManager.set_log_stream_map ["g"; "d"] None)).
  assert (Hn : 1 <= length (LOG_STREAM_MAP example_state)) by (simpl; lia).
  assert (Hsame : length (LOG_STREAM_MAP (claim_c example_state))
                  = length (LOG_STREAM_MAP example_state)) by reflexivity.
  assert (Hdiff : length (LOG_STREAM_MAP (insert_d example_state))
                  <> length (LOG_STREAM_MAP example_state)) by discriminate.
  assert (Hid : identity_keys example_state) by (repeat constructor).
  assert (Hid' : identity_keys (claim_c example_state)) by (repeat constructor).
  split; [repeat split; assumption|].
  destruct (@readers_read_live_store (fun _ => "<Thread>") py_encode_basestring_ascii
              example_state claim_c 1) as (_ & _ & Hscan & _ & Hlog & _).
  destruct (@readers_read_live_store (fun _ => "<Thread>") py_encode_basestring_ascii
              example_state insert_d 1) as (_ & _ & _ & Hscan' & _ & Hlog' & _).
  split; [exact (Hscan Hn Hsame)|].
  split; [exact (Hscan' Hn Hdiff [])|].
  split; [exact (Hlog Hid Hid' Hn Hsame)|].
  exact (Hlog' Hid Hn Hdiff []).
Defined.
